(** * angelkfrontend: the hand-rolled router, theme store and contact form

    A shallow embedding of [src/App.jsx]: the path normaliser
    [parsePathFrom], the [RouterProvider] store with its [navigate]
    operation, the [AppRouterSwitch] view resolver, the [ThemeProvider]
    store and the [Contact] form with its validation and submission.

    JavaScript strings are modelled by [string]; a character stands for
    the code unit of the same number (0..255).  React state cells are
    fields of a record that is threaded through the handlers, and the
    browser objects the handlers touch (location, session history, timers,
    local storage, the document element, the network) are explicit parts of
    that record.  A state cell holds the value last given to its setter,
    which is what the next render reads; what a closure of an earlier
    render still sees is kept in a field of its own.  An exception leaves
    the statements after it undone and is recorded when no handler catches
    it. *)

From Stdlib Require Import ZArith Ascii String.
From stdpp Require Import gmap strings.

Local Open Scope string_scope.

(** ** JavaScript string primitives *)

Module JS.

(** The code units below 256 that ECMAScript counts as [WhiteSpace] or
    [LineTerminator]: TAB, LF, VT, FF, CR, SP and NBSP.  [trim] strips them
    and the regular-expression class [\s] matches them. *)
Definition isWhiteSpace (c : ascii) : bool :=
  match N_of_ascii c with
  | 9 | 10 | 11 | 12 | 13 | 32 | 160 => true
  | _ => false
  end%N.

Fixpoint trimStart (s : string) : string :=
  match s with
  | EmptyString => EmptyString
  | String c s' => if isWhiteSpace c then trimStart s' else s
  end.

Fixpoint trimEnd (s : string) : string :=
  match s with
  | EmptyString => EmptyString
  | String c s' =>
      match trimEnd s' with
      | EmptyString => if isWhiteSpace c then EmptyString else String c EmptyString
      | t => String c t
      end
  end.

(** [s.trim()] *)
Definition trim (s : string) : string := trimEnd (trimStart s).

(** [s.startsWith(pre)] *)
Fixpoint startsWith (s pre : string) {struct pre} : bool :=
  match pre, s with
  | EmptyString, _ => true
  | String _ _, EmptyString => false
  | String c pre', String d s' => Ascii.eqb c d && startsWith s' pre'
  end.

(** [s.endsWith(suf)] *)
Definition endsWith (s suf : string) : bool :=
  let n := String.length s in
  let m := String.length suf in
  (m <=? n)%nat && String.eqb (substring (n - m) m s) suf.

(** [a === b] and [a !== b] on strings *)
Definition strictEq (a b : string) : bool := String.eqb a b.
Definition strictNe (a b : string) : bool := negb (String.eqb a b).

(** [!s] for a string: only the empty string is falsy. *)
Definition falsy (s : string) : bool :=
  match s with EmptyString => true | String _ _ => false end.

(** [v || d] for a value that is [undefined] or a string: the empty string
    is falsy as well. *)
Definition orElse (v : option string) (d : string) : string :=
  match v with
  | None => d
  | Some EmptyString => d
  | Some s => s
  end.

(** A string that [trim] leaves alone. *)
Definition trimmed (s : string) : Prop := trim s = s.

(** A string with no white space at its first and at its last
    character. *)
Definition edgeFree (t : string) : Prop :=
  (forall c r, t = String c r -> isWhiteSpace c = false) /\
  (forall r c, t = r ++ String c EmptyString -> isWhiteSpace c = false).

End JS.

(** ** State threaded through event handlers *)

(** A handler is a function from the state it runs in to its result and the
    state it leaves; [mret] and [mbind] sequence the statements. *)
Definition state (S A : Type) : Type := S -> A * S.

#[global] Instance state_ret {S} : MRet (state S) := fun A a s => (a, s).
#[global] Instance state_bind {S} : MBind (state S) :=
  fun A B k m s => let (a, s') := m s in k a s'.

Definition get {S} : state S S := fun s => (s, s).
Definition modify {S} (f : S -> S) : state S unit := fun s => (tt, f s).
Definition exec {S A} (m : state S A) (s : S) : S := snd (m s).
Definition eval {S A} (m : state S A) (s : S) : A := fst (m s).

(** [if (b) stmt] *)
Definition when {S} (b : bool) (m : state S unit) : state S unit :=
  if b then m else mret tt.

(** ** Statements that may throw *)

(** The exceptions of the code modelled here: the [DOMException] that
    [history.pushState] throws for a URL it may not show. *)
Inductive Exception := SecurityError.

(** A statement runs to its value or throws; either way it leaves a
    state, and what it changed before throwing stays changed. *)
Definition throwing (S A : Type) : Type := S -> (Exception + A) * S.

#[global] Instance throwing_ret {S} : MRet (throwing S) := fun A a s => (inr a, s).
#[global] Instance throwing_bind {S} : MBind (throwing S) :=
  fun A B k m s =>
    match m s with
    | (inl e, s') => (inl e, s')
    | (inr a, s') => k a s'
    end.

(** A statement that does not throw. *)
Definition lift {S A} (m : state S A) : throwing S A :=
  fun s => let (a, s') := m s in (inr a, s').

(** [throw e] *)
Definition throw {S A} (e : Exception) : throwing S A := fun s => (inl e, s).

(** A handler called by the event loop: an exception nobody caught ends
    the handler and is reported with [report]. *)
Definition uncaughtTo {S} (report : Exception -> state S unit) (m : throwing S unit)
  : state S unit :=
  fun s =>
    match m s with
    | (inl e, s') => report e s'
    | (inr _, s') => (tt, s')
    end.

(** ** URLs as the browser reads them *)

(** The URL parser of the URL Standard, for a string that starts with a
    slash and is resolved against the URL of an http or https document, on
    code units 0..255; the document encoding is UTF-8.  The result is the
    path and the query as [location.pathname] and [location.search] give
    them. *)
Module URL.

Definition code (c : ascii) : N := N_of_ascii c.

Definition isC0ControlOrSpace (c : ascii) : bool := (code c <=? 32)%N.

Definition isTabOrNewline (c : ascii) : bool :=
  match code c with
  | 9 | 10 | 13 => true
  | _ => false
  end%N.

(** [/] and, in a special scheme, [\]. *)
Definition isSlash (c : ascii) : bool :=
  match code c with
  | 47 | 92 => true
  | _ => false
  end%N.

Fixpoint dropStart (p : ascii -> bool) (s : string) : string :=
  match s with
  | EmptyString => EmptyString
  | String c s' => if p c then dropStart p s' else s
  end.

Fixpoint dropEnd (p : ascii -> bool) (s : string) : string :=
  match s with
  | EmptyString => EmptyString
  | String c s' =>
      match dropEnd p s' with
      | EmptyString => if p c then EmptyString else String c EmptyString
      | t => String c t
      end
  end.

Fixpoint remove (p : ascii -> bool) (s : string) : string :=
  match s with
  | EmptyString => EmptyString
  | String c s' => if p c then remove p s' else String c (remove p s')
  end.

(** The C0 control percent-encode set, the query, special-query and path
    percent-encode sets. *)
Definition c0ControlSet (c : ascii) : bool :=
  (code c <=? 31)%N || (126 <? code c)%N.

Definition querySet (c : ascii) : bool :=
  c0ControlSet c ||
  match code c with
  | 32 | 34 | 35 | 60 | 62 => true
  | _ => false
  end%N.

Definition specialQuerySet (c : ascii) : bool :=
  querySet c || (code c =? 39)%N.

Definition pathSet (c : ascii) : bool :=
  querySet c ||
  match code c with
  | 63 | 94 | 96 | 123 | 125 => true
  | _ => false
  end%N.

Definition hexDigit (n : N) : ascii :=
  ascii_of_N (if n <? 10 then 48 + n else 55 + n)%N.

(** [%XX] *)
Definition percentEncodeByte (b : N) : string :=
  String "%" (String (hexDigit (b / 16)) (String (hexDigit (b mod 16)) EmptyString)).

(** UTF-8 percent-encode a code point below 256 using a set. *)
Definition utf8PercentEncode (set : ascii -> bool) (c : ascii) : string :=
  if set c then
    if (code c <? 128)%N then percentEncodeByte (code c)
    else percentEncodeByte (192 + code c / 64) +:+ percentEncodeByte (128 + code c mod 64)
  else String c EmptyString.

Definition isSingleDot (segment : string) : bool :=
  existsb (String.eqb segment) ["."; "%2e"; "%2E"].

Definition isDoubleDot (segment : string) : bool :=
  existsb (String.eqb segment)
    [".."; ".%2e"; ".%2E"; "%2e."; "%2E."; "%2e%2e"; "%2e%2E"; "%2E%2e"; "%2E%2E"].

(** Shorten a path, in a scheme other than file. *)
Definition shorten (path : list string) : list string := removelast path.

(** The buffer is complete: [final] tells that the character that ended
    it is not a slash. *)
Definition endSegment (buffer : string) (path : list string) (final : bool)
  : list string :=
  if isDoubleDot buffer then
    (if final then shorten path ++ [EmptyString] else shorten path)
  else if isSingleDot buffer then
    (if final then path ++ [EmptyString] else path)
  else path ++ [buffer].

(** The query state, up to the fragment or the end. *)
Fixpoint queryState (s : string) : string :=
  match s with
  | EmptyString => EmptyString
  | String c rest =>
      if Ascii.eqb c "#" then EmptyString
      else utf8PercentEncode specialQuerySet c +:+ queryState rest
  end.

(** The path state: the segments of the path and the query, if there is
    one. *)
Fixpoint pathState (s : string) (buffer : string) (path : list string)
  : list string * option string :=
  match s with
  | EmptyString => (endSegment buffer path true, None)
  | String c rest =>
      if isSlash c then pathState rest EmptyString (endSegment buffer path false)
      else if Ascii.eqb c "?" then (endSegment buffer path true, Some (queryState rest))
      else if Ascii.eqb c "#" then (endSegment buffer path true, None)
      else pathState rest (buffer +:+ utf8PercentEncode pathSet c) path
  end.

(** The URL path serialiser. *)
Fixpoint serializePath (path : list string) : string :=
  match path with
  | [] => EmptyString
  | segment :: rest => String "/" segment +:+ serializePath rest
  end.

(** [location.search] for a query: empty for no query and for the empty
    one. *)
Definition searchOf (query : option string) : string :=
  match query with
  | Some (String c q) => String "?" (String c q)
  | _ => EmptyString
  end.

(** Path and search of the URL the string denotes, or [None] when the
    string names a host of its own (it goes on with a slash or a backslash
    after the first slash), which makes it a URL of another origin unless
    the host is the document's.  A string that does not start with a slash
    is resolved against the directory of the document, which is not kept
    here; the router never passes one. *)
Definition parse (url : string) : option (string * string) :=
  let input :=
    remove isTabOrNewline
      (dropEnd isC0ControlOrSpace (dropStart isC0ControlOrSpace url)) in
  match input with
  | String first rest =>
      if negb (Ascii.eqb first "/") then None
      else if match rest with String second _ => isSlash second | _ => false end
      then None
      else
        let (path, query) := pathState rest EmptyString [] in
        Some (serializePath path, searchOf query)
  | EmptyString => None
  end.

(** Letters and digits. *)
Definition isAlnum (c : ascii) : bool :=
  ((48 <=? code c) && (code c <=? 57) ||
   (65 <=? code c) && (code c <=? 90) ||
   (97 <=? code c) && (code c <=? 122))%N.

(** The characters of a plain path segment: letters, digits, [-], [_]
    and [~]. *)
Definition segmentChar (c : ascii) : bool :=
  isAlnum c ||
  match code c with
  | 45 | 95 | 126 => true
  | _ => false
  end%N.

(** The characters of a plain query: those of a segment and [&], [+],
    [.], [/], [=]. *)
Definition queryChar (c : ascii) : bool :=
  segmentChar c ||
  match code c with
  | 38 | 43 | 46 | 47 | 61 => true
  | _ => false
  end%N.

Fixpoint plainQuery (s : string) : bool :=
  match s with
  | EmptyString => true
  | String c rest => queryChar c && plainQuery rest
  end.

(** Plain segments between slashes, then nothing or a question mark and a
    plain query that is not empty. *)
Fixpoint plainPath (s : string) : bool :=
  match s with
  | EmptyString => true
  | String c rest =>
      if Ascii.eqb c "/" then plainPath rest
      else if Ascii.eqb c "?"
           then match rest with EmptyString => false | _ => plainQuery rest end
      else segmentChar c && plainPath rest
  end.

(** A plain URL: one slash, not followed by another, and a plain path. *)
Definition plain (url : string) : bool :=
  match url with
  | String first rest =>
      Ascii.eqb first "/" &&
      negb (match rest with String second _ => Ascii.eqb second "/" | _ => false end) &&
      plainPath rest
  | EmptyString => false
  end.

(** A character that the parser neither strips nor removes and that
    [trim] does not take for white space. *)
Definition kept (c : ascii) : bool :=
  negb (isC0ControlOrSpace c) && negb (isTabOrNewline c) &&
  negb (JS.isWhiteSpace c).

End URL.

(** ** The router: [parsePathFrom], [RouterProvider], [navigate] *)

Module Router.
Import JS.

(** [parsePathFrom]; the argument is [None] for [undefined]. *)
Definition parsePathFrom (path : option string) : string :=
  let p := trim (orElse path "/") in
  if startsWith p "/" then p else "/" +:+ p.

(** The normaliser as the specification words it: trim the input, an
    empty or missing input is the root, a value that starts with a slash is
    kept, any other value gets a slash in front. *)
Definition normalize_spec (input : option string) : string :=
  match input with
  | None => "/"
  | Some s =>
      let t := trim s in
      if falsy t then "/"
      else if startsWith t "/" then t
      else "/" +:+ t
  end.

(** [window.location], as far as the router reads it. *)
Record Location := { pathname : string; search : string }.

(** The location a URL that starts with a slash denotes in a document
    served over http or https, as the URL parser has it; [None] for a URL
    of another origin. *)
Definition locationOf (url : string) : option Location :=
  match URL.parse url with
  | Some (p, q) => Some {| pathname := p; search := q |}
  | None => None
  end.

(** The callbacks handed to [setTimeout]: only [() => setLoading(false)]. *)
Inductive TimerCallback := ClearLoading.

Record Timer := { due : Z; callback : TimerCallback }.

(** The [options] argument of [navigate]; [{}] is [defaultOptions]. *)
Record Options := { showLoader : bool }.
Definition defaultOptions : Options := {| showLoader := false |}.

Record World := {
  location : Location;      (* window.location *)
  resolveURL : string -> option Location;
                            (* the browser on a URL given to pushState: the
                               location it denotes, None when it may not be
                               shown (another origin, or no URL at all) *)
  pushed : list string;     (* URLs of the entries history.pushState added,
                               oldest first *)
  popstates : nat;          (* popstate events dispatched so far *)
  uncaught : list Exception;(* exceptions that left a handler uncaught *)
  route : string;           (* const [route, setRoute] = useState(...) *)
  loading : bool;           (* const [loading, setLoading] = useState(false) *)
  handleRoute : string;     (* what window.__router.route returns *)
  handleLoading : bool;     (* window.__router.loading *)
  now : Z;                  (* the clock, in milliseconds *)
  timers : list Timer       (* pending setTimeout callbacks, in the order set *)
}.

Definition setRoute (r : string) : state World unit :=
  modify (fun w =>
    {| location := location w; resolveURL := resolveURL w; pushed := pushed w;
       popstates := popstates w; uncaught := uncaught w;
       route := r; loading := loading w;
       handleRoute := handleRoute w; handleLoading := handleLoading w;
       now := now w; timers := timers w |}).

Definition setLoading (b : bool) : state World unit :=
  modify (fun w =>
    {| location := location w; resolveURL := resolveURL w; pushed := pushed w;
       popstates := popstates w; uncaught := uncaught w;
       route := route w; loading := b;
       handleRoute := handleRoute w; handleLoading := handleLoading w;
       now := now w; timers := timers w |}).

(** [window.history.pushState({}, "", url)]: when the browser may show
    the URL, a new entry is added and the location follows, no event is
    dispatched; when it may not, the call throws and nothing changes. *)
Definition pushState (url : string) : throwing World unit :=
  w ← lift get;
  match resolveURL w url with
  | Some loc =>
      lift (modify (fun w =>
        {| location := loc; resolveURL := resolveURL w; pushed := pushed w ++ [url];
           popstates := popstates w; uncaught := uncaught w;
           route := route w; loading := loading w;
           handleRoute := handleRoute w; handleLoading := handleLoading w;
           now := now w; timers := timers w |}))
  | None => throw SecurityError
  end.

(** [setTimeout(cb, delay)] *)
Definition setTimeout (cb : TimerCallback) (delay : Z) : state World unit :=
  modify (fun w =>
    {| location := location w; resolveURL := resolveURL w; pushed := pushed w;
       popstates := popstates w; uncaught := uncaught w;
       route := route w; loading := loading w;
       handleRoute := handleRoute w; handleLoading := handleLoading w;
       now := now w;
       timers := timers w ++ [{| due := now w + delay; callback := cb |}] |}).

(** An exception no handler caught reaches the event loop. *)
Definition reportError (e : Exception) : state World unit :=
  modify (fun w =>
    {| location := location w; resolveURL := resolveURL w; pushed := pushed w;
       popstates := popstates w; uncaught := uncaught w ++ [e];
       route := route w; loading := loading w;
       handleRoute := handleRoute w; handleLoading := handleLoading w;
       now := now w; timers := timers w |}).

(** [window.location.pathname + window.location.search] *)
Definition locationPath : state World string :=
  w ← get; mret (pathname (location w) +:+ search (location w)).

Definition getCurrentPath : state World string :=
  current ← locationPath; mret (parsePathFrom (Some current)).

(** The provider after its first render and its effects, in a browser
    that reads URLs as the URL parser does, on a page whose own host no
    target names: [useState(() => getCurrentPath())], [useState(false)], and
    [window.__router] as the effect has set it. *)
Definition mount (loc : Location) : World :=
  {| location := loc; resolveURL := locationOf; pushed := []; popstates := 0;
     uncaught := [];
     route := parsePathFrom (Some (pathname loc +:+ search loc));
     loading := false;
     handleRoute := parsePathFrom (Some (pathname loc +:+ search loc));
     handleLoading := false;
     now := 0; timers := [] |}.

(** The provider renders again and its effect with the dependencies
    [[route, loading]] runs: [window.__router] is replaced by an object whose
    [route] getter and [loading] hold the state of this render. *)
Definition render : state World unit :=
  modify (fun w =>
    {| location := location w; resolveURL := resolveURL w; pushed := pushed w;
       popstates := popstates w; uncaught := uncaught w;
       route := route w; loading := loading w;
       handleRoute := route w; handleLoading := loading w;
       now := now w; timers := timers w |}).

(** The [popstate] listener. *)
Definition onPop : state World unit :=
  p ← getCurrentPath; setRoute p.

(** The body of [navigate]; [pushState] may throw in the middle of it. *)
Definition navigate_body (to : option string) (options : Options)
  : throwing World unit :=
  let path := parsePathFrom to in
  current ← lift locationPath;
  if strictNe path current then
    lift (when (showLoader options) (setLoading true));;
    pushState path;;
    lift (setRoute path);;
    lift (when (showLoader options) (setTimeout ClearLoading 300))
  else mret tt.

(** A call of [navigate] from an event handler or from a script: nothing
    around it catches. *)
Definition navigate (to : option string) (options : Options) : state World unit :=
  uncaughtTo reportError (navigate_body to options).

Definition runCallback (cb : TimerCallback) : state World unit :=
  match cb with ClearLoading => setLoading false end.

Definition isDue (t : Z) (tm : Timer) : bool := (due tm <=? t)%Z.

(** The event loop idles for [dt] milliseconds: the clock moves on and the
    callbacks that fall due run, in the order they were set. *)
Definition advance (dt : Z) : state World unit :=
  fun w =>
    let t := (now w + dt)%Z in
    let w' :=
      {| location := location w; resolveURL := resolveURL w; pushed := pushed w;
         popstates := popstates w; uncaught := uncaught w;
         route := route w; loading := loading w;
         handleRoute := handleRoute w; handleLoading := handleLoading w;
         now := t;
         timers := filter (fun tm => isDue t tm = false) (timers w) |} in
    (tt, foldl (fun acc tm => exec (runCallback (callback tm)) acc) w'
               (filter (fun tm => isDue t tm = true) (timers w))).

End Router.

(** ** The view resolver: [AppRouterSwitch] *)

Module Views.
Import JS.

(** The page components the switch can return. *)
Inductive View := Home | About | Brands | Media | Contact | Privacy | Terms.

#[global] Instance View_eq_dec : EqDecision View.
Proof. solve_decision. Defined.

(** The function inside [useMemo]. *)
Definition resolve (route : string) : View :=
  if startsWith route "/about" then About
  else if startsWith route "/brands" then Brands
  else if startsWith route "/media" then Media
  else if startsWith route "/contact" then Contact
  else if startsWith route "/privacy" then Privacy
  else if startsWith route "/terms" then Terms
  else Home.

(** [useMemo(f, [route])]: the cell holds the dependency and the value of
    the last render, empty before the first one. *)
Definition Memo : Type := option (string * View).

(** One render of [AppRouterSwitch] with the given route from the context:
    the memoised value is reused when the dependency is the same string. *)
Definition AppRouterSwitch (route : string) : state Memo View :=
  memo ← get;
  match memo with
  | Some (dep, v) =>
      if strictEq dep route then mret v
      else (modify (fun _ => Some (route, resolve route));; mret (resolve route))
  | None => modify (fun _ => Some (route, resolve route));; mret (resolve route)
  end.

(** A memo cell holds what the resolver gives for the dependency it
    holds. *)
Definition memo_consistent (memo : Memo) : Prop :=
  match memo with
  | Some (dep, v) => v = resolve dep
  | None => True
  end.

(** The views a sequence of renders returns, from a given memo cell. *)
Fixpoint renders (routes : list string) : state Memo (list View) :=
  match routes with
  | [] => mret []
  | r :: rs => v ← AppRouterSwitch r; vs ← renders rs; mret (v :: vs)
  end.

(** The resolver as the specification words it: an ordered table of
    prefixes, the first match wins, Home when none matches. *)
Definition viewTable : list (string * View) :=
  [("/about", About); ("/brands", Brands); ("/media", Media);
   ("/contact", Contact); ("/privacy", Privacy); ("/terms", Terms)].

Fixpoint firstMatch (table : list (string * View)) (route : string) : option View :=
  match table with
  | [] => None
  | (pre, v) :: rest => if startsWith route pre then Some v else firstMatch rest route
  end.

Definition resolve_spec (route : string) : View :=
  default Home (firstMatch viewTable route).

End Views.

(** ** The theme store: [ThemeProvider] *)

Module Theme.
Import JS.

Record World := {
  theme : string;                        (* const [theme, setTheme] = useState('dark') *)
  localStorage : gmap string string;     (* window.localStorage *)
  documentElement : gmap string string   (* attributes of document.documentElement *)
}.

Definition setTheme (t : string) : state World unit :=
  modify (fun w => {| theme := t; localStorage := localStorage w;
                      documentElement := documentElement w |}).

(** [document.documentElement.setAttribute(k, v)] *)
Definition setAttribute (k v : string) : state World unit :=
  modify (fun w => {| theme := theme w; localStorage := localStorage w;
                      documentElement := <[k := v]> (documentElement w) |}).

(** [localStorage.setItem(k, v)] *)
Definition setItem (k v : string) : state World unit :=
  modify (fun w => {| theme := theme w; localStorage := <[k := v]> (localStorage w);
                      documentElement := documentElement w |}).

(** [localStorage.getItem(k)]: [None] is [null]. *)
Definition getItem (k : string) : state World (option string) :=
  w ← get; mret (localStorage w !! k).

Definition toggleTheme : state World unit :=
  w ← get;
  let newTheme := if strictEq (theme w) "dark" then "light" else "dark" in
  setTheme newTheme;;
  setAttribute "data-theme" newTheme;;
  setItem "theme" newTheme.

(** The first render: [useState('dark')], nothing read or written yet. *)
Definition firstRender (storage attrs : gmap string string) : World :=
  {| theme := "dark"; localStorage := storage; documentElement := attrs |}.

(** The mount effect, [useEffect(..., [])]. *)
Definition mountEffect : state World unit :=
  saved ← getItem "theme";
  let savedTheme := orElse saved "dark" in
  setTheme savedTheme;;
  setAttribute "data-theme" savedTheme.

(** Start-up, and a reload on the storage an earlier run left: the first
    render followed by the mount effect. *)
Definition startup (storage : gmap string string) : World :=
  exec mountEffect (firstRender storage ∅).

End Theme.

(** ** Regular expressions, as far as the contact form uses them *)

Module Regex.
Import JS.

Inductive re :=
| Never                          (* matches no string *)
| Epsilon                        (* matches the empty string *)
| Class (p : ascii -> bool)      (* one character of a class *)
| Seq (r1 r2 : re)               (* r1 r2 *)
| Alt (r1 r2 : re)               (* r1 | r2 *)
| Star (r : re).                 (* r* *)

(** [r+] *)
Definition Plus (r : re) : re := Seq r (Star r).
(** a literal character *)
Definition Lit (c : ascii) : re := Class (Ascii.eqb c).
(** [\S] *)
Definition NonSpace : re := Class (fun c => negb (isWhiteSpace c)).

(** The strings a pattern matches as a whole. *)
Inductive Matches : re -> string -> Prop :=
| MEpsilon : Matches Epsilon ""
| MClass p c : p c = true -> Matches (Class p) (String c "")
| MSeq r1 r2 s1 s2 : Matches r1 s1 -> Matches r2 s2 -> Matches (Seq r1 r2) (s1 +:+ s2)
| MAltL r1 r2 s : Matches r1 s -> Matches (Alt r1 r2) s
| MAltR r1 r2 s : Matches r2 s -> Matches (Alt r1 r2) s
| MStarNil r : Matches (Star r) ""
| MStarCons r s1 s2 : Matches r s1 -> Matches (Star r) s2 -> Matches (Star r) (s1 +:+ s2).

Fixpoint nullable (r : re) : bool :=
  match r with
  | Never => false
  | Epsilon => true
  | Class _ => false
  | Seq r1 r2 => nullable r1 && nullable r2
  | Alt r1 r2 => nullable r1 || nullable r2
  | Star _ => true
  end.

(** What is left of [r] after it has read [c]. *)
Fixpoint deriv (c : ascii) (r : re) : re :=
  match r with
  | Never => Never
  | Epsilon => Never
  | Class p => if p c then Epsilon else Never
  | Seq r1 r2 =>
      if nullable r1 then Alt (Seq (deriv c r1) r2) (deriv c r2)
      else Seq (deriv c r1) r2
  | Alt r1 r2 => Alt (deriv c r1) (deriv c r2)
  | Star r1 => Seq (deriv c r1) (Star r1)
  end.

(** Does [r] match some prefix of [s]? *)
Fixpoint matchesAtStart (r : re) (s : string) : bool :=
  nullable r ||
  match s with
  | EmptyString => false
  | String c s' => matchesAtStart (deriv c r) s'
  end.

(** [/r/.test(s)] for a pattern without anchors and flags: the match is
    tried at every position of [s], from the left. *)
Fixpoint test (r : re) (s : string) : bool :=
  matchesAtStart r s ||
  match s with
  | EmptyString => false
  | String _ s' => test r s'
  end.

(** Every character of [s] is in the class [p]. *)
Fixpoint allIn (p : ascii -> bool) (s : string) : bool :=
  match s with
  | EmptyString => true
  | String c s' => p c && allIn p s'
  end.

(** A non-empty run of characters that are not white space: what [\S+]
    matches. *)
Definition nonSpaceRun (s : string) : Prop :=
  s <> "" /\ allIn (fun c => negb (isWhiteSpace c)) s = true.

End Regex.

(** ** The contact form: [Contact] *)

Module Contact.
Import JS Regex.

Inductive Status := idle | submitting | success | error.

#[global] Instance Status_eq_dec : EqDecision Status.
Proof. solve_decision. Defined.

Record Form := { name : string; email : string; message : string }.

Definition emptyForm : Form := {| name := ""; email := ""; message := "" |}.

(** What [fetch] is called with; [body] is the form that
    [JSON.stringify] serialises. *)
Record Request := {
  url : string;
  method : string;
  contentType : string;
  body : Form
}.

(** How the promise of [fetch] settles: with a response carrying an HTTP
    status, or rejected when the request fails in transport. *)
Inductive FetchResult :=
| Response (httpStatus : Z)
| Rejected.

(** [res.ok] *)
Definition ok (httpStatus : Z) : bool :=
  ((200 <=? httpStatus) && (httpStatus <=? 299))%Z.

Record World := {
  status : Status;                     (* useState('idle') *)
  error_ : string;                     (* const [error, setError] = useState('') *)
  form : Form;                         (* useState({ name:'', email:'', message:'' }) *)
  formErrors : gmap string string;     (* useState({}) *)
  requests : list Request              (* the calls of fetch so far, oldest first *)
}.

Definition mount : World :=
  {| status := idle; error_ := ""; form := emptyForm; formErrors := ∅; requests := [] |}.

Definition setStatus (s : Status) : state World unit :=
  modify (fun w => {| status := s; error_ := error_ w; form := form w;
                      formErrors := formErrors w; requests := requests w |}).

Definition setError (e : string) : state World unit :=
  modify (fun w => {| status := status w; error_ := e; form := form w;
                      formErrors := formErrors w; requests := requests w |}).

Definition setForm (f : Form) : state World unit :=
  modify (fun w => {| status := status w; error_ := error_ w; form := f;
                      formErrors := formErrors w; requests := requests w |}).

Definition setFormErrors (e : gmap string string) : state World unit :=
  modify (fun w => {| status := status w; error_ := error_ w; form := form w;
                      formErrors := e; requests := requests w |}).

(** The call of [fetch]: the request goes out. *)
Definition fetch (r : Request) : state World unit :=
  modify (fun w => {| status := status w; error_ := error_ w; form := form w;
                      formErrors := formErrors w; requests := requests w ++ [r] |}).

(** [/\S+@\S+\.\S+/] *)
Definition emailPattern : re :=
  Seq (Plus NonSpace) (Seq (Lit "@") (Seq (Plus NonSpace) (Seq (Lit ".") (Plus NonSpace)))).

(** A string with an e-mail-shaped part somewhere in it. *)
Definition emailShaped (s : string) : Prop :=
  exists pre u v w post,
    s = pre +:+ u +:+ "@" +:+ v +:+ "." +:+ w +:+ post /\
    nonSpaceRun u /\ nonSpaceRun v /\ nonSpaceRun w.

(** The object [errors] that [validateForm] builds for a form. *)
Definition errorsOf (f : Form) : gmap string string :=
  let errors : gmap string string := ∅ in
  let errors :=
    if falsy (trim (name f)) then <["name" := "Name is required"]> errors else errors in
  let errors :=
    if falsy (trim (email f)) then <["email" := "Email is required"]> errors
    else if negb (test emailPattern (email f)) then <["email" := "Email is invalid"]> errors
    else errors in
  let errors :=
    if falsy (trim (message f)) then <["message" := "Message is required"]> errors
    else errors in
  errors.

Definition validateForm : state World bool :=
  w ← get;
  let errors := errorsOf (form w) in
  setFormErrors errors;;
  (* Object.keys(errors).length === 0 *)
  mret (Nat.eqb (size errors) 0).

Definition genericError : string :=
  "Could not submit to backend. Check API_BASE and /api/contact endpoint.".

(** The request [onSubmit] sends for a form. *)
Definition contactRequest (API_BASE : string) (f : Form) : Request :=
  {| url := API_BASE +:+ "/api/contact"; method := "POST";
     contentType := "application/json"; body := f |}.

(** [onSubmit] up to its [await]: the result tells whether a request went
    out and the handler is suspended on it. *)
Definition onSubmit_request (API_BASE : string) : state World bool :=
  valid ← validateForm;
  if negb valid then mret false
  else
    setStatus submitting;;
    setError "";;
    w ← get;
    fetch (contactRequest API_BASE (form w));;
    mret true.

(** The [catch] block. *)
Definition onSubmit_catch : state World unit :=
  setError genericError;;
  setStatus error.

(** [onSubmit] from the point where the promise of [fetch] has settled. *)
Definition onSubmit_settle (reply : FetchResult) : state World unit :=
  match reply with
  | Response httpStatus =>
      if negb (ok httpStatus) then onSubmit_catch
      else (setStatus success;; setForm emptyForm)
  | Rejected => onSubmit_catch
  end.

(** A whole run of [onSubmit], the request being answered by [reply]. *)
Definition onSubmit (API_BASE : string) (reply : FetchResult) : state World unit :=
  sent ← onSubmit_request API_BASE;
  when sent (onSubmit_settle reply).

End Contact.

(** ** Sessions of the router: navigation, history traversal, idle time *)

Module Session.
Import JS Router.

Definition setLocation (loc : Location) : state World unit :=
  modify (fun w =>
    {| location := loc; resolveURL := resolveURL w; pushed := pushed w;
       popstates := popstates w; uncaught := uncaught w;
       route := route w; loading := loading w;
       handleRoute := handleRoute w; handleLoading := handleLoading w;
       now := now w; timers := timers w |}).

(** A [popstate] event reaches the window: the listener registered by the
    provider runs. *)
Definition dispatchPopstate : state World unit :=
  modify (fun w =>
    {| location := location w; resolveURL := resolveURL w; pushed := pushed w;
       popstates := S (popstates w); uncaught := uncaught w;
       route := route w; loading := loading w;
       handleRoute := handleRoute w; handleLoading := handleLoading w;
       now := now w; timers := timers w |});;
  onPop.

(** The browser moves to another entry of the session history (back,
    forward, or [replaceState] followed by a dispatched [popstate] as the
    development tests do): the location changes, then the event fires. *)
Definition traverse (loc : Location) : state World unit :=
  setLocation loc;; dispatchPopstate.

(** What can happen to a mounted provider. *)
Inductive Event :=
| Navigate (to : option string) (options : Options)
| Traverse (loc : Location)
| Idle (dt : Z).

Definition handle (ev : Event) : state World unit :=
  match ev with
  | Navigate to options => navigate to options
  | Traverse loc => traverse loc
  | Idle dt => advance dt
  end.

Fixpoint handleAll (evs : list Event) : state World unit :=
  match evs with
  | [] => mret tt
  | ev :: rest => handle ev;; handleAll rest
  end.

(** Does [c] occur in [s]? *)
Fixpoint contains (c : ascii) (s : string) : bool :=
  match s with
  | EmptyString => false
  | String d s' => Ascii.eqb c d || contains c s'
  end.

(** The browser of [w] shows the URL and reports it back as it was given:
    the path and the query of the location it denotes, put together, are the
    URL itself. *)
Definition stable (w : World) (url : string) : Prop :=
  exists loc, resolveURL w url = Some loc /\ pathname loc +:+ search loc = url.

(** The browser of [w] shows the URL. *)
Definition accepted (w : World) (url : string) : Prop :=
  is_Some (resolveURL w url).

(** A location as a browser reports it for a page of the site: the path
    starts with a slash and path and query carry no white space at the
    ends. *)
Definition wellFormed (loc : Location) : Prop :=
  startsWith (pathname loc) "/" = true /\
  trimmed (pathname loc +:+ search loc).

(** The events that, in the browser of [w], keep to stable targets and
    well-formed locations. *)
Definition tame (w : World) (ev : Event) : Prop :=
  match ev with
  | Navigate to _ => stable w (parsePathFrom to)
  | Traverse loc => wellFormed loc
  | Idle _ => True
  end.

(** The events whose navigations, in the browser of [w], go to URLs it
    shows. *)
Definition welcome (w : World) (ev : Event) : Prop :=
  match ev with
  | Navigate to _ => accepted w (parsePathFrom to)
  | _ => True
  end.

(** Time does not run backwards. *)
Definition forward (ev : Event) : Prop :=
  match ev with
  | Idle dt => (0 <= dt)%Z
  | _ => True
  end.

(** A normalised path. *)
Definition normalised (p : string) : Prop :=
  startsWith p "/" = true /\ trimmed p.

(** Every pending callback falls due within 300 ms, none is overdue, and
    the loading flag is up only while a callback is pending. *)
Definition loaderBacked (w : World) : Prop :=
  Forall (fun tm => (now w < due tm <= now w + 300)%Z) (timers w) /\
  (loading w = true -> timers w <> []).

(** The navigations and the traversals among the events. *)
Fixpoint navigations (evs : list Event) : nat :=
  match evs with
  | [] => 0
  | Navigate _ _ :: rest => S (navigations rest)
  | _ :: rest => navigations rest
  end.

Fixpoint traversals (evs : list Event) : nat :=
  match evs with
  | [] => 0
  | Traverse _ :: rest => S (traversals rest)
  | _ :: rest => traversals rest
  end.

End Session.

(** ** Navigation links: [NavLink] *)

Module NavLink.
Import JS Router.

(** [const active = route === to || (to !== '/' && route.startsWith(to))] *)
Definition active (route to : string) : bool :=
  strictEq route to || (strictNe to "/" && startsWith route to).

(** [onClick]: [navigate(to, { showLoader: true })] *)
Definition onClick (to : string) : state World unit :=
  navigate (Some to) {| showLoader := true |}.

(** The targets of the links in the header and the footer. *)
Definition targets : list string :=
  ["/"; "/about"; "/brands"; "/media"; "/contact"; "/privacy"; "/terms"].

End NavLink.

(** ** Sessions of the theme store *)

Module ThemeSession.
Import JS Theme.

(** [n] clicks on the theme button. *)
Fixpoint toggles (n : nat) : state World unit :=
  match n with
  | O => mret tt
  | S n' => toggleTheme;; toggles n'
  end.

(** The theme a toggle leads to. *)
Definition flipped (t : string) : string :=
  if strictEq t "dark" then "light" else "dark".

(** The stored theme, the attribute and the state agree. *)
Definition themeInSync (w : World) : Prop :=
  orElse (localStorage w !! "theme") "dark" = theme w /\
  documentElement w !! "data-theme" = Some (theme w).

End ThemeSession.

(** ** Sessions of the contact form *)

Module ContactSession.
Import JS Regex Contact.

(** The [onChange] handlers of the three inputs:
    [setForm({...form, name: e.target.value})] and the like. *)
Definition onChangeName (v : string) : state World unit :=
  w ← get;
  setForm {| name := v; email := email (form w); message := message (form w) |}.

Definition onChangeEmail (v : string) : state World unit :=
  w ← get;
  setForm {| name := name (form w); email := v; message := message (form w) |}.

Definition onChangeMessage (v : string) : state World unit :=
  w ← get;
  setForm {| name := name (form w); email := email (form w); message := v |}.

(** What the user does with the form; a submission comes with the way
    its request, if one goes out, is answered. *)
Inductive Event :=
| ChangeName (v : string)
| ChangeEmail (v : string)
| ChangeMessage (v : string)
| Submit (reply : FetchResult).

Definition handle (API_BASE : string) (ev : Event) : state World unit :=
  match ev with
  | ChangeName v => onChangeName v
  | ChangeEmail v => onChangeEmail v
  | ChangeMessage v => onChangeMessage v
  | Submit reply => onSubmit API_BASE reply
  end.

Fixpoint handleAll (API_BASE : string) (evs : list Event) : state World unit :=
  match evs with
  | [] => mret tt
  | ev :: rest => handle API_BASE ev;; handleAll API_BASE rest
  end.

(** The submissions among the events. *)
Fixpoint submissions (evs : list Event) : nat :=
  match evs with
  | [] => 0
  | Submit _ :: rest => S (submissions rest)
  | _ :: rest => submissions rest
  end.

(** Does the reply make the submission succeed? *)
Definition succeeds (reply : FetchResult) : bool :=
  match reply with
  | Response httpStatus => ok httpStatus
  | Rejected => false
  end.

(** What holds of the form between whole runs of its handlers: the state
    is idle exactly as long as nothing was sent, a run never rests in
    [submitting], the state [error] comes with the generic message, and
    every request sent is a POST to the contact endpoint of a form without
    errors. *)
Definition settled (API_BASE : string) (w : World) : Prop :=
  (status w = idle <-> requests w = []) /\
  status w <> submitting /\
  (status w = error -> error_ w = genericError) /\
  Forall (fun r => errorsOf (body r) = ∅ /\
                   url r = API_BASE +:+ "/api/contact" /\ method r = "POST")
         (requests w).

End ContactSession.

(** ** The cursor glow: [CursorGlow] *)

Module CursorGlow.

Section Glow.

(** The numbers of the mouse coordinates, and [n - 12] on them. *)
Variable coord : Type.
Variable minus12 : coord -> coord.

Record MouseEvent := { clientX : coord; clientY : coord }.

(** [`translate3d(${x}px, ${y}px, 0)`] *)
Inductive Transform := translate3d (x y : coord).

Record World := {
  raf : Z;                            (* let raf = 0 *)
  frames : list (Z * MouseEvent);     (* callbacks given to requestAnimationFrame
                                         and not yet run: handle and event *)
  nextHandle : Z;                     (* the handle the browser gives out next *)
  current : bool;                     (* is elRef.current an element? *)
  transform : option Transform        (* elRef.current.style.transform *)
}.

(** The component after its first render: the element is there, no frame
    is requested; the browser's handles start at 1 and are never 0. *)
Definition mount : World :=
  {| raf := 0; frames := []; nextHandle := 1; current := true; transform := None |}.

(** [requestAnimationFrame(cb)], [cb] being the callback of [onMove] for
    the event [e]. *)
Definition requestAnimationFrame (e : MouseEvent) : state World Z :=
  fun w =>
    (nextHandle w,
     {| raf := raf w; frames := frames w ++ [(nextHandle w, e)];
        nextHandle := nextHandle w + 1;
        current := current w; transform := transform w |}).

Definition setRaf (h : Z) : state World unit :=
  modify (fun w => {| raf := h; frames := frames w; nextHandle := nextHandle w;
                      current := current w; transform := transform w |}).

Definition setTransform (t : Transform) : state World unit :=
  modify (fun w => {| raf := raf w; frames := frames w; nextHandle := nextHandle w;
                      current := current w; transform := Some t |}).

(** The [mousemove] listener. *)
Definition onMove (e : MouseEvent) : state World unit :=
  w ← get;
  if negb (raf w =? 0)%Z then mret tt
  else (h ← requestAnimationFrame e; setRaf h).

(** The callback [onMove] requested for [e]. *)
Definition frameCallback (e : MouseEvent) : state World unit :=
  w ← get;
  when (current w)
       (setTransform (translate3d (minus12 (clientX e)) (minus12 (clientY e))));;
  setRaf 0.

(** The browser paints: the requested callbacks run, in the order of the
    requests, and the list is empty again. *)
Definition animationFrame : state World unit :=
  fun w =>
    (tt, foldl (fun acc he => exec (frameCallback (snd he)) acc)
               {| raf := raf w; frames := []; nextHandle := nextHandle w;
                  current := current w; transform := transform w |}
               (frames w)).

Inductive Event :=
| Move (e : MouseEvent)
| Frame.

Definition handle (ev : Event) : state World unit :=
  match ev with
  | Move e => onMove e
  | Frame => animationFrame
  end.

Fixpoint handleAll (evs : list Event) : state World unit :=
  match evs with
  | [] => mret tt
  | ev :: rest => handle ev;; handleAll rest
  end.

(** At most one frame is requested at a time, and [raf] holds its handle;
    the handles to come are positive. *)
Definition throttled (w : World) : Prop :=
  (0 < nextHandle w)%Z /\
  ((raf w = 0%Z /\ frames w = []) \/
   (exists e, raf w <> 0%Z /\ frames w = [(raf w, e)])).

End Glow.

Arguments clientX {coord}.
Arguments clientY {coord}.
Arguments translate3d {coord}.
Arguments raf {coord}.
Arguments frames {coord}.
Arguments nextHandle {coord}.
Arguments current {coord}.
Arguments transform {coord}.
Arguments mount {coord}.
Arguments Move {coord}.
Arguments Frame {coord}.
Arguments throttled {coord}.

End CursorGlow.

(** * Properties *)

(** ** Trimming *)

Section TrimFacts.
Import JS.
Lemma trimEnd_head c s :
  trimEnd (String c s) = EmptyString \/ exists t, trimEnd (String c s) = String c t.
Proof.
  simpl. destruct (trimEnd s) as [|d t].
  - destruct (isWhiteSpace c); [now left | right; now exists EmptyString].
  - right. now exists (String d t).
Qed.

Lemma trimStart_head s :
  trimStart s = EmptyString \/
  exists c t, trimStart s = String c t /\ isWhiteSpace c = false.
Proof.
  induction s as [|c s IH]; simpl; [now left|].
  destruct (isWhiteSpace c) eqn:Hc; [exact IH|].
  right. now exists c, s.
Qed.

Lemma trimStart_nonspace c s :
  isWhiteSpace c = false -> trimStart (String c s) = String c s.
Proof. intros Hc. simpl. now rewrite Hc. Qed.

Lemma trimEnd_idem s : trimEnd (trimEnd s) = trimEnd s.
Proof.
  induction s as [|c s IH]; simpl; [reflexivity|].
  destruct (trimEnd s) as [|d t] eqn:Ht.
  - destruct (isWhiteSpace c) eqn:Hc; simpl; [reflexivity|now rewrite Hc].
  - change (trimEnd (String c (String d t))) with
      (match trimEnd (String d t) with
       | EmptyString => if isWhiteSpace c then EmptyString else String c EmptyString
       | u => String c u
       end).
    now rewrite IH.
Qed.

Lemma trimStart_trimEnd s :
  trimStart s = s -> trimStart (trimEnd s) = trimEnd s.
Proof.
  intros Hs. destruct s as [|c s]; [reflexivity|].
  assert (Hc : isWhiteSpace c = false).
  { simpl in Hs. destruct (isWhiteSpace c) eqn:Hc; [|reflexivity].
    exfalso. destruct (trimStart_head s) as [He|(d & t & He & _)];
      rewrite He in Hs; [discriminate|].
    assert (Hlen : String.length (trimStart s) = String.length (String c s))
      by now rewrite <- He in Hs; rewrite Hs.
    clear -Hlen. simpl in Hlen.
    assert (Hle : forall u, String.length (trimStart u) <= String.length u).
    { induction u as [|e u IH]; simpl; [lia|].
      destruct (isWhiteSpace e); simpl; lia. }
    specialize (Hle s). lia. }
  destruct (trimEnd_head c s) as [He|[t He]]; rewrite He; [reflexivity|].
  now apply trimStart_nonspace.
Qed.

Lemma trimStart_idem s : trimStart (trimStart s) = trimStart s.
Proof.
  destruct (trimStart_head s) as [He|(c & t & He & Hc)]; rewrite He;
    [reflexivity | now apply trimStart_nonspace].
Qed.

Lemma trim_idem s : trim (trim s) = trim s.
Proof.
  unfold trim.
  rewrite (trimStart_trimEnd (trimStart s)) by apply trimStart_idem.
  apply trimEnd_idem.
Qed.

Lemma trim_trimmed s : trimmed (trim s).
Proof. apply trim_idem. Qed.

Lemma trimmed_trimEnd s : trimmed s -> trimEnd s = s.
Proof.
  unfold trimmed, trim. intros Hs.
  rewrite <- Hs at 1. rewrite trimEnd_idem. exact Hs.
Qed.

(** Putting a character that is not white space in front of a trimmed
    string gives a trimmed string. *)
Lemma trimmed_cons c s :
  isWhiteSpace c = false -> trimmed s -> trimmed (String c s).
Proof.
  intros Hc Hs. unfold trimmed, trim.
  rewrite trimStart_nonspace by exact Hc.
  simpl. rewrite (trimmed_trimEnd s Hs).
  destruct s; [now rewrite Hc | reflexivity].
Qed.

Lemma trimmed_slash : trimmed "/".
Proof. reflexivity. Qed.

Lemma startsWith_slash s : startsWith (String "/" s) "/" = true.
Proof. reflexivity. Qed.

Lemma startsWith_slash_inv s :
  startsWith s "/" = true -> exists t, s = String "/" t.
Proof.
  destruct s as [|c s]; [discriminate|].
  change (startsWith (String c s) "/") with (Ascii.eqb "/" c && true).
  rewrite andb_true_r. intros Hc.
  apply Ascii.eqb_eq in Hc. subst c. now exists s.
Qed.

End TrimFacts.

(** ** The model on the inputs of the development tests *)

Section DevTests.
Import JS Router Views Regex Contact.

Example trim_both_ends : trim (String "009" "  a b " +:+ String "160" "") = "a b".
Proof. reflexivity. Qed.

Example parsePathFrom_privacy : parsePathFrom (Some "/privacy") = "/privacy".
Proof. reflexivity. Qed.

Example parsePathFrom_blank : parsePathFrom (Some "   ") = "/".
Proof. reflexivity. Qed.

Example parsePathFrom_trims : parsePathFrom (Some " /about ") = "/about".
Proof. reflexivity. Qed.

Example locationOf_query :
  locationOf "/terms?x=1#top" = Some {| pathname := "/terms"; search := "?x=1" |}.
Proof. reflexivity. Qed.

Example locationOf_encodes :
  locationOf "/a b?q=x y" = Some {| pathname := "/a%20b"; search := "?q=x%20y" |}.
Proof. reflexivity. Qed.

Example locationOf_dot_segments :
  locationOf "/a/../b/./c" = Some {| pathname := "/b/c"; search := "" |}.
Proof. reflexivity. Qed.

Example locationOf_backslash_and_tab :
  locationOf (String "/" (String "a" (String "009" "\b"))) =
    Some {| pathname := "/a/b"; search := "" |}.
Proof. reflexivity. Qed.

Example locationOf_other_host :
  locationOf "//evil.com" = None /\ locationOf "/\evil.com/x" = None.
Proof. split; reflexivity. Qed.

Example locationOf_bare_query_and_fragment :
  locationOf "/about?" = Some {| pathname := "/about"; search := "" |} /\
  locationOf "/about#team" = Some {| pathname := "/about"; search := "" |}.
Proof. split; reflexivity. Qed.

(** [navigate('/__test__')], [navigate('about')], [navigate('/about')] from
    the root, as the development tests of the source run them. *)
Example navigate_dev_tests :
  let w1 := exec (navigate (Some "/__test__") defaultOptions)
                 (Router.mount {| pathname := "/"; search := "" |}) in
  let w2 := exec (navigate (Some "about") defaultOptions) w1 in
  let w3 := exec (navigate (Some "/about") defaultOptions) w2 in
  route w1 = "/__test__" /\ endsWith (pathname (location w1)) "/__test__" = true /\
  endsWith (pathname (location w2)) "/about" = true /\
  route w3 = "/about" /\ pushed w3 = ["/__test__"; "/about"].
Proof. repeat split; reflexivity. Qed.

(** A back step of the browser: the location changes first, then the
    listener brings the route in line without a push. *)
Example onPop_follows_location :
  let w := Router.mount {| pathname := "/about"; search := "" |} in
  let back := exec (Session.setLocation {| pathname := "/"; search := "" |}) w in
  route (exec onPop back) = "/" /\ pushed (exec onPop back) = pushed w.
Proof. split; reflexivity. Qed.

Example resolve_query : resolve "/contact?ref=nav" = Views.Contact.
Proof. reflexivity. Qed.

Example resolve_root : resolve "/" = Home.
Proof. reflexivity. Qed.

Example test_plain_address : test emailPattern "ann@example.com" = true.
Proof. vm_compute. reflexivity. Qed.

Example test_no_dot : test emailPattern "ann@example" = false.
Proof. vm_compute. reflexivity. Qed.

Example test_space_after_at : test emailPattern "ann@ example.com" = false.
Proof. vm_compute. reflexivity. Qed.

Example ok_bounds : ok 199 = false /\ ok 200 = true /\ ok 299 = true /\ ok 300 = false.
Proof. repeat split; reflexivity. Qed.

End DevTests.

(** ** Path normalisation *)

Section Normalisation.
Import JS Router.

Lemma parsePathFrom_cases path :
  parsePathFrom path = trim (orElse path "/") /\
    startsWith (trim (orElse path "/")) "/" = true
  \/ parsePathFrom path = String "/" (trim (orElse path "/")) /\
    startsWith (trim (orElse path "/")) "/" = false.
Proof.
  unfold parsePathFrom.
  destruct (startsWith (trim (orElse path "/")) "/"); [left | right]; now split.
Qed.

Lemma parsePathFrom_slash path : exists t, parsePathFrom path = String "/" t.
Proof.
  destruct (parsePathFrom_cases path) as [[-> H]|[-> _]].
  - now apply startsWith_slash_inv.
  - now eexists.
Qed.

Lemma parsePathFrom_trimmed path : trimmed (parsePathFrom path).
Proof.
  destruct (parsePathFrom_cases path) as [[-> _]|[-> _]].
  - apply trim_trimmed.
  - apply trimmed_cons; [reflexivity | apply trim_trimmed].
Qed.

(** A normalised route is a fixed point of the normaliser. *)
Lemma parsePathFrom_fixed s :
  trimmed s -> startsWith s "/" = true -> parsePathFrom (Some s) = s.
Proof.
  intros Ht Hs. unfold parsePathFrom.
  destruct (startsWith_slash_inv s Hs) as [t ->].
  simpl orElse. rewrite Ht. now rewrite Hs.
Qed.

(** C3: normalising a normalised path changes nothing:
    [parsePathFrom (parsePathFrom s) = parsePathFrom s] for every string
    [s] (and for [undefined] as well). *)
Theorem parsePathFrom_idempotent :
  (forall s : string,
     parsePathFrom (Some (parsePathFrom (Some s))) = parsePathFrom (Some s)) /\
  parsePathFrom (Some (parsePathFrom None)) = parsePathFrom None.
Proof.
  assert (H : forall p, parsePathFrom (Some (parsePathFrom p)) = parsePathFrom p).
  { intros p. apply parsePathFrom_fixed.
    - apply parsePathFrom_trimmed.
    - destruct (parsePathFrom_slash p) as [t ->]. apply startsWith_slash. }
  split; [intros s|]; apply H.
Qed.

End Normalisation.

(** ** Navigation *)

Section Navigation.
Import JS Router.

Lemma strictNe_false a b : strictNe a b = false <-> a = b.
Proof.
  unfold strictNe. rewrite negb_false_iff. apply String.eqb_eq.
Qed.

Lemma strictNe_true a b : strictNe a b = true <-> a <> b.
Proof.
  unfold strictNe. rewrite negb_true_iff. apply String.eqb_neq.
Qed.

(** The body of [navigate] is a test on the location followed by the
    four statements. *)
Lemma navigate_body_unfold to options w :
  navigate_body to options w =
    (if strictNe (parsePathFrom to) (eval locationPath w)
     then (lift (when (showLoader options) (setLoading true));;
           pushState (parsePathFrom to);;
           lift (setRoute (parsePathFrom to));;
           lift (when (showLoader options) (setTimeout ClearLoading 300)))
     else mret tt) w.
Proof. reflexivity. Qed.

(** What a call of [navigate] leaves: nothing new when the target is the
    current location; an entry, the route and, on request, the loader and
    its timer when the browser shows the URL; the loader, if requested, and
    an uncaught exception when it does not. *)
Lemma navigate_run to options w :
  exec (navigate to options) w =
    if strictNe (parsePathFrom to) (eval locationPath w) then
      match resolveURL w (parsePathFrom to) with
      | Some loc =>
          {| location := loc; resolveURL := resolveURL w;
             pushed := pushed w ++ [parsePathFrom to];
             popstates := popstates w; uncaught := uncaught w;
             route := parsePathFrom to;
             loading := showLoader options || loading w;
             handleRoute := handleRoute w; handleLoading := handleLoading w;
             now := now w;
             timers := if showLoader options
                       then timers w ++ [{| due := now w + 300; callback := ClearLoading |}]
                       else timers w |}
      | None =>
          {| location := location w; resolveURL := resolveURL w;
             pushed := pushed w;
             popstates := popstates w; uncaught := uncaught w ++ [SecurityError];
             route := route w;
             loading := showLoader options || loading w;
             handleRoute := handleRoute w; handleLoading := handleLoading w;
             now := now w; timers := timers w |}
      end
    else w.
Proof.
  unfold exec, navigate, uncaughtTo. rewrite navigate_body_unfold.
  destruct (strictNe (parsePathFrom to) (eval locationPath w)); [|reflexivity].
  generalize (parsePathFrom to). intros p.
  destruct (resolveURL w p) as [loc|] eqn:Hres;
    destruct options as [[|]];
    cbv [mbind throwing_bind lift pushState when setLoading setRoute
         setTimeout modify get throw reportError mret throwing_ret state_ret
         showLoader fst snd orb];
    cbn [resolveURL]; rewrite Hres; reflexivity.
Qed.

(** C1: when the normalised target is the path of the current browser
    location, [navigate] leaves everything as it was: no history entry is
    pushed, the route and the loading flag keep their values and no timer is
    set, whatever [options.showLoader] is. *)
Theorem navigate_current_is_noop (to : option string) (options : Options) (w : World) :
  parsePathFrom to = eval locationPath w ->
  navigate to options w = (tt, w) /\
  pushed (exec (navigate to options) w) = pushed w /\
  route (exec (navigate to options) w) = route w /\
  loading (exec (navigate to options) w) = loading w.
Proof.
  intros Heq.
  assert (Hrun : navigate to options w = (tt, w)).
  { apply strictNe_false in Heq.
    unfold navigate, uncaughtTo. rewrite navigate_body_unfold. now rewrite Heq. }
  unfold exec. now rewrite Hrun.
Qed.

Lemma navigate_current_is_noop_witness :
  let w := mount {| pathname := "/about"; search := "" |} in
  let options := {| showLoader := true |} in
  parsePathFrom (Some "about") = eval locationPath w /\
  navigate (Some "about") options w = (tt, w) /\
  pushed (exec (navigate (Some "about") options) w) = pushed w /\
  route (exec (navigate (Some "about") options) w) = route w /\
  loading (exec (navigate (Some "about") options) w) = loading w.
Proof.
  split; [reflexivity|].
  apply (navigate_current_is_noop (Some "about") {| showLoader := true |}
           (mount {| pathname := "/about"; search := "" |})).
  reflexivity.
Defined.




(** C9: two navigations that ask for the loader, the second 100 ms after
    the first.  At 300 ms the callback set by the first navigation runs and
    turns the loading flag off, although the second navigation's own delay
    runs until 400 ms and its callback is still pending: the callbacks carry
    nothing that ties them to a navigation. *)
Theorem loader_cleared_by_earlier_navigation :
  exists (w0 : World) (to1 to2 : option string) (dt1 dt2 : Z),
    let withLoader := {| showLoader := true |} in
    let w1 := exec (navigate to1 withLoader) w0 in
    let w2 := exec (advance dt1) w1 in
    let w3 := exec (navigate to2 withLoader) w2 in
    let w4 := exec (advance dt2) w3 in
    (0 <= dt1 < 300)%Z /\
    timers w1 = [{| due := now w1 + 300; callback := ClearLoading |}] /\
    pushed w3 = (pushed w0 ++ [parsePathFrom to1; parsePathFrom to2])%list /\
    loading w3 = true /\
    timers w3 = [{| due := now w1 + 300; callback := ClearLoading |};
                 {| due := now w3 + 300; callback := ClearLoading |}] /\
    now w4 = (now w1 + 300)%Z /\
    (now w4 < now w3 + 300)%Z /\
    route w4 = parsePathFrom to2 /\
    loading w4 = false /\
    timers w4 = [{| due := now w3 + 300; callback := ClearLoading |}].
Proof.
  exists (mount {| pathname := "/"; search := "" |}),
         (Some "about"), (Some "brands"), 100%Z, 200%Z.
  vm_compute. repeat split; congruence.
Qed.

End Navigation.

(** ** View resolution *)

Section ViewResolution.
Import JS Views.

Lemma resolve_table route : resolve route = resolve_spec route.
Proof.
  unfold resolve, resolve_spec, viewTable, firstMatch.
  repeat (match goal with |- context [startsWith route ?p] =>
            destruct (startsWith route p); [reflexivity|] end).
  reflexivity.
Qed.

Lemma AppRouterSwitch_render route memo :
  memo_consistent memo ->
  eval (AppRouterSwitch route) memo = resolve route /\
  memo_consistent (exec (AppRouterSwitch route) memo).
Proof.
  intros Hm. destruct memo as [[dep v]|]; [|now split].
  unfold eval, exec, AppRouterSwitch, mbind, state_bind, get.
  destruct (strictEq dep route) eqn:Heq; [|now split].
  apply String.eqb_eq in Heq. subst dep. simpl in *. now split.
Qed.

Lemma renders_resolve routes : forall memo,
  memo_consistent memo -> eval (renders routes) memo = map resolve routes.
Proof.
  induction routes as [|r rs IH]; intros memo Hm; [reflexivity|].
  destruct (AppRouterSwitch_render r memo Hm) as [Hv Hm'].
  specialize (IH _ Hm').
  unfold eval, exec in *. simpl. unfold mbind, state_bind.
  destruct (AppRouterSwitch r memo) as [v memo']. simpl in *.
  destruct (renders rs memo') as [vs memo'']. simpl in *.
  now rewrite Hv, IH.
Qed.

(** C2: the resolver returns the view of the first prefix the route starts
    with, in the order about, brands, media, contact, privacy, terms, and
    Home when there is none; ["/brands/anything"] gives Brands and
    ["/unknown"] gives Home; and through any sequence of renders the switch
    returns, at each render, the view of that render's route: the same
    route gives the same view every time. *)
Theorem AppRouterSwitch_resolves :
  (forall route, resolve route = resolve_spec route) /\
  map fst viewTable =
    ["/about"; "/brands"; "/media"; "/contact"; "/privacy"; "/terms"] /\
  resolve "/brands/anything" = Brands /\
  resolve "/unknown" = Home /\
  (forall routes, eval (renders routes) None = map resolve routes) /\
  (forall before route between,
     exists v rest,
       eval (renders (before ++ route :: between ++ [route])) None =
         (map resolve before ++ v :: rest ++ [v])%list).
Proof.
  split; [exact resolve_table|].
  split; [reflexivity|]. split; [reflexivity|]. split; [reflexivity|].
  split.
  - intros routes. now apply renders_resolve.
  - intros before route between.
    exists (resolve route), (map resolve between).
    rewrite renders_resolve by exact I.
    rewrite map_app. simpl. rewrite map_app. reflexivity.
Qed.

End ViewResolution.

(** ** Theme *)

Section ThemeFacts.
Import JS Theme.

Lemma toggleTheme_run w :
  exec toggleTheme w =
    let newTheme := if strictEq (theme w) "dark" then "light" else "dark" in
    {| theme := newTheme;
       localStorage := <["theme" := newTheme]> (localStorage w);
       documentElement := <["data-theme" := newTheme]> (documentElement w) |}.
Proof. reflexivity. Qed.

Lemma startup_theme storage :
  theme (startup storage) = orElse (storage !! "theme") "dark".
Proof. reflexivity. Qed.

(** C8: with no theme in storage the theme is dark, at the first render
    and after the mount effect; one toggle from there gives light, writes
    ["light"] under the key [theme] and sets the attribute [data-theme] to
    it, and a start-up on the storage left behind gives light.  Every
    toggle gives dark or light, never the theme it started from (dark gives
    light, light gives dark), and stores and mirrors the new value. *)
Theorem toggleTheme_flips_and_persists :
  (forall storage : gmap string string,
     storage !! "theme" = None ->
     let w0 := startup storage in
     let w1 := exec toggleTheme w0 in
     theme (firstRender storage ∅) = "dark" /\
     theme w0 = "dark" /\
     theme w1 = "light" /\
     localStorage w1 !! "theme" = Some "light" /\
     documentElement w1 !! "data-theme" = Some "light" /\
     theme (startup (localStorage w1)) = "light") /\
  (forall w : World,
     let w' := exec toggleTheme w in
     (theme w = "dark" -> theme w' = "light") /\
     (theme w = "light" -> theme w' = "dark") /\
     (theme w' = "dark" \/ theme w' = "light") /\
     theme w' <> theme w /\
     localStorage w' !! "theme" = Some (theme w') /\
     documentElement w' !! "data-theme" = Some (theme w')).
Proof.
  split.
  - intros storage Hnone w0 w1.
    assert (H0 : theme w0 = "dark").
    { subst w0. rewrite startup_theme, Hnone. reflexivity. }
    assert (H1 : w1 = {| theme := "light";
                         localStorage := <["theme" := "light"]> (localStorage w0);
                         documentElement := <["data-theme" := "light"]> (documentElement w0) |}).
    { subst w1. rewrite toggleTheme_run, H0. reflexivity. }
    split; [reflexivity|]. split; [exact H0|].
    rewrite H1.
    split; [reflexivity|].
    split; [apply lookup_insert_eq|]. split; [apply lookup_insert_eq|].
    rewrite startup_theme.
    change (localStorage _) with (<["theme" := "light"]> (localStorage w0)).
    rewrite lookup_insert_eq. reflexivity.
  - intros w w'. subst w'. rewrite toggleTheme_run. cbv zeta. simpl.
    split; [intros ->; reflexivity|].
    split; [intros ->; reflexivity|].
    split; [destruct (strictEq (theme w) "dark"); auto|].
    split.
    + destruct (strictEq (theme w) "dark") eqn:He.
      * apply String.eqb_eq in He. rewrite He. discriminate.
      * apply String.eqb_neq in He. congruence.
    + split; apply lookup_insert_eq.
Qed.

Lemma toggleTheme_flips_and_persists_witness :
  let w0 := startup ∅ in
  let w1 := exec toggleTheme w0 in
  (∅ : gmap string string) !! "theme" = None /\
  theme (firstRender ∅ ∅) = "dark" /\
  theme w0 = "dark" /\
  theme w1 = "light" /\
  localStorage w1 !! "theme" = Some "light" /\
  documentElement w1 !! "data-theme" = Some "light" /\
  theme (startup (localStorage w1)) = "light".
Proof.
  split; [reflexivity|].
  apply (proj1 toggleTheme_flips_and_persists ∅). reflexivity.
Defined.

End ThemeFacts.

(** ** Regular-expression matching *)

Section RegexFacts.
Import JS Regex.

Lemma append_cons c s t : String c s +:+ t = String c (s +:+ t).
Proof. reflexivity. Qed.

Lemma append_nil_r s : s +:+ "" = s.
Proof.
  induction s as [|c s IH]; [reflexivity|]. now rewrite append_cons, IH.
Qed.

Lemma append_assoc s1 s2 s3 : (s1 +:+ s2) +:+ s3 = s1 +:+ (s2 +:+ s3).
Proof.
  induction s1 as [|c s1 IH]; [reflexivity|]. now rewrite !append_cons, IH.
Qed.

Lemma append_nil_inv s1 s2 : s1 +:+ s2 = "" -> s1 = "" /\ s2 = "".
Proof. destruct s1; [now split | discriminate]. Qed.

Lemma append_cons_inv s1 s2 c s :
  s1 +:+ s2 = String c s ->
  (s1 = "" /\ s2 = String c s) \/ (exists t, s1 = String c t /\ s = t +:+ s2).
Proof.
  destruct s1 as [|d t]; [now left|].
  rewrite append_cons. intros [= -> <-]. right. now exists t.
Qed.

Lemma nullable_matches r : nullable r = true -> Matches r "".
Proof.
  induction r as [| |p|r1 IH1 r2 IH2|r1 IH1 r2 IH2|r IH]; simpl; intros Hn;
    try discriminate.
  - constructor.
  - apply andb_true_iff in Hn as [H1 H2].
    apply (MSeq r1 r2 "" ""); auto.
  - apply orb_true_iff in Hn as [H|H]; [apply MAltL | apply MAltR]; auto.
  - constructor.
Qed.

Lemma matches_nullable r s : Matches r s -> s = "" -> nullable r = true.
Proof.
  induction 1 as [|p c Hp|r1 r2 s1 s2 _ IH1 _ IH2|r1 r2 s _ IH|r1 r2 s _ IH
                  |r|r s1 s2 _ _ _ _]; intros He; simpl; try reflexivity.
  - discriminate.
  - apply append_nil_inv in He as [-> ->]. now rewrite IH1, IH2.
  - now rewrite IH.
  - rewrite IH by assumption. apply orb_true_r.
Qed.

Lemma nullable_iff r : nullable r = true <-> Matches r "".
Proof.
  split; [apply nullable_matches | intros H; now apply (matches_nullable r "")].
Qed.

(** The derivative reads one character: soundness. *)
Lemma deriv_matches c r : forall s, Matches (deriv c r) s -> Matches r (String c s).
Proof.
  induction r as [| |p|r1 IH1 r2 IH2|r1 IH1 r2 IH2|r IH]; simpl; intros s Hm.
  - inversion Hm.
  - inversion Hm.
  - destruct (p c) eqn:Hp; inversion Hm; subst. now constructor.
  - assert (Hseq : forall t, Matches (Seq (deriv c r1) r2) t ->
                             Matches (Seq r1 r2) (String c t)).
    { intros t Ht. inversion Ht as [| |? ? s1 s2 H1 H2| | | |]; subst.
      apply (MSeq r1 r2 (String c s1) s2); auto. }
    destruct (nullable r1) eqn:Hn; [|now apply Hseq].
    inversion Hm as [| | |? ? ? Hl|? ? ? Hr| |]; subst; [now apply Hseq|].
    apply (MSeq r1 r2 "" (String c s)); [now apply nullable_matches | auto].
  - inversion Hm; subst; [apply MAltL | apply MAltR]; auto.
  - inversion Hm as [| |? ? s1 s2 H1 H2| | | |]; subst.
    apply (MStarCons r (String c s1) s2); auto.
Qed.

(** The derivative reads one character: completeness. *)
Lemma matches_deriv c r t :
  Matches r t -> forall s, t = String c s -> Matches (deriv c r) s.
Proof.
  induction 1 as [|p d Hp|r1 r2 s1 s2 H1 IH1 H2 IH2|r1 r2 t _ IH|r1 r2 t _ IH
                  |r|r s1 s2 H1 IH1 H2 IH2]; intros s He; simpl.
  - discriminate.
  - injection He as -> <-. rewrite Hp. constructor.
  - apply append_cons_inv in He as [[-> ->]|(t & -> & ->)].
    + rewrite (matches_nullable r1 "" H1 eq_refl). apply MAltR. now apply IH2.
    + assert (Hs : Matches (Seq (deriv c r1) r2) (t +:+ s2))
        by (constructor; auto).
      destruct (nullable r1); [now apply MAltL | exact Hs].
  - apply MAltL. now apply IH.
  - apply MAltR. now apply IH.
  - discriminate.
  - apply append_cons_inv in He as [[-> ->]|(t & -> & ->)].
    + now apply IH2.
    + constructor; auto.
Qed.

Lemma deriv_iff c r s : Matches (deriv c r) s <-> Matches r (String c s).
Proof.
  split; [apply deriv_matches | intros H; now apply (matches_deriv c r _ H)].
Qed.

(** [matchesAtStart] finds a match that starts at the first character. *)
Lemma matchesAtStart_iff s : forall r,
  matchesAtStart r s = true <-> exists u v, s = u +:+ v /\ Matches r u.
Proof.
  induction s as [|c s IH]; intros r; simpl.
  - rewrite orb_false_r, nullable_iff. split.
    + intros H. now exists "", "".
    + intros (u & v & He & Hm). symmetry in He.
      apply append_nil_inv in He as [-> _]. exact Hm.
  - rewrite orb_true_iff, nullable_iff, IH. split.
    + intros [H|(u & v & -> & Hm)].
      * now exists "", (String c s).
      * exists (String c u), v. split; [reflexivity | now apply deriv_iff].
    + intros (u & v & He & Hm). symmetry in He.
      apply append_cons_inv in He as [[-> _]|(t & -> & ->)]; [now left|].
      right. exists t, v. split; [reflexivity | now apply deriv_iff].
Qed.

(** [test] finds a match anywhere in the string. *)
Lemma test_iff r s :
  test r s = true <-> exists pre u post, s = pre +:+ u +:+ post /\ Matches r u.
Proof.
  induction s as [|c s IH]; cbn [test].
  - rewrite orb_false_r, matchesAtStart_iff. split.
    + intros (u & v & He & Hm). now exists "", u, v.
    + intros (pre & u & post & He & Hm). symmetry in He.
      apply append_nil_inv in He as [-> He].
      apply append_nil_inv in He as [-> ->]. now exists "", "".
  - rewrite orb_true_iff, matchesAtStart_iff, IH. split.
    + intros [(u & v & He & Hm)|(pre & u & post & -> & Hm)].
      * now exists "", u, v.
      * now exists (String c pre), u, post.
    + intros (pre & u & post & He & Hm). symmetry in He.
      apply append_cons_inv in He as [[-> He]|(t & -> & ->)].
      * left. now exists u, post.
      * right. now exists t, u, post.
Qed.

Lemma star_class_iff p s : Matches (Star (Class p)) s <-> allIn p s = true.
Proof.
  split.
  - remember (Star (Class p)) as r eqn:Hr. intros Hm.
    induction Hm as [| | | | | |r s1 s2 H1 _ H2 IH2]; try discriminate; [reflexivity|].
    injection Hr as ->. inversion H1; subst.
    rewrite append_cons. cbn [allIn String.append].
    rewrite andb_true_iff. split; [assumption | now apply IH2].
  - induction s as [|c s IH]; simpl; intros Ha; [constructor|].
    apply andb_true_iff in Ha as [Hc Hs].
    apply (MStarCons (Class p) (String c "") s); [now constructor | auto].
Qed.

(** [\S+] matches the non-empty runs of characters that are not white
    space. *)
Lemma plus_nonspace_iff s : Matches (Plus NonSpace) s <-> nonSpaceRun s.
Proof.
  unfold Plus, NonSpace, nonSpaceRun. split.
  - intros Hm. inversion Hm as [| |? ? s1 s2 H1 H2| | | |]; subst.
    inversion H1; subst. apply star_class_iff in H2.
    rewrite append_cons. cbn [allIn String.append].
    split; [discriminate|]. now rewrite andb_true_iff.
  - intros [Hne Ha]. destruct s as [|c s]; [congruence|].
    simpl in Ha. apply andb_true_iff in Ha as [Hc Hs].
    apply (MSeq _ _ (String c "") s); [now constructor | now apply star_class_iff].
Qed.

Lemma lit_iff c s : Matches (Lit c) s <-> s = String c "".
Proof.
  unfold Lit. split.
  - intros Hm. inversion Hm as [|? d Hd| | | | |]; subst.
    apply Ascii.eqb_eq in Hd. now subst.
  - intros ->. constructor. apply Ascii.eqb_refl.
Qed.

End RegexFacts.

(** ** Blank fields and the e-mail pattern *)

Section EmailFacts.
Import JS Regex Contact.

Lemma allIn_append p s1 s2 : allIn p (s1 +:+ s2) = allIn p s1 && allIn p s2.
Proof.
  induction s1 as [|c s1 IH]; [reflexivity|].
  rewrite append_cons. cbn [allIn]. now rewrite IH, andb_assoc.
Qed.

Lemma trimStart_empty_iff s : trimStart s = "" <-> allIn isWhiteSpace s = true.
Proof.
  induction s as [|c s IH]; simpl; [tauto|].
  destruct (isWhiteSpace c); [exact IH|]. split; discriminate.
Qed.

Lemma trimEnd_empty_iff s : trimEnd s = "" <-> allIn isWhiteSpace s = true.
Proof.
  induction s as [|c s IH]; simpl; [tauto|].
  destruct (trimEnd s) as [|d t].
  - destruct (isWhiteSpace c); simpl; [tauto|]. split; discriminate.
  - split; [discriminate|]. intros Ha.
    apply andb_true_iff in Ha as [_ Hs]. now apply IH in Hs.
Qed.

(** A field is blank, that is [!s.trim()] holds, exactly when it is empty
    or made of white space only. *)
Lemma trim_empty_iff s : trim s = "" <-> allIn isWhiteSpace s = true.
Proof.
  unfold trim. rewrite trimEnd_empty_iff, <- (trimStart_empty_iff s).
  destruct (trimStart_head s) as [He|(c & t & He & Hc)]; rewrite He.
  - split; reflexivity.
  - simpl. rewrite Hc. split; discriminate.
Qed.

Lemma falsy_iff s : falsy s = true <-> s = "".
Proof. destruct s; simpl; split; congruence. Qed.

Lemma nonSpaceRun_not_blank pre u post :
  nonSpaceRun u -> trim (pre +:+ u +:+ post) <> "".
Proof.
  intros [Hne Hu] Hb. apply trim_empty_iff in Hb.
  rewrite !allIn_append in Hb.
  apply andb_true_iff in Hb as [_ Hb]. apply andb_true_iff in Hb as [Hb _].
  destruct u as [|c u]; [congruence|].
  simpl in Hu, Hb.
  apply andb_true_iff in Hu as [Hc _]. apply andb_true_iff in Hb as [Hc' _].
  rewrite Hc' in Hc. discriminate.
Qed.

(** The strings [/\S+@\S+\.\S+/] matches as a whole. *)
Lemma emailPattern_matches s :
  Matches emailPattern s <->
  exists u v w, s = u +:+ "@" +:+ v +:+ "." +:+ w /\
                nonSpaceRun u /\ nonSpaceRun v /\ nonSpaceRun w.
Proof.
  unfold emailPattern. split.
  - intros Hm.
    inversion Hm as [| |? ? u s1 Hu H1| | | |]; subst.
    inversion H1 as [| |? ? a s2 Ha H2| | | |]; subst.
    inversion H2 as [| |? ? v s3 Hv H3| | | |]; subst.
    inversion H3 as [| |? ? d w Hd Hw| | | |]; subst.
    apply lit_iff in Ha, Hd. subst a d.
    apply plus_nonspace_iff in Hu, Hv, Hw.
    now exists u, v, w.
  - intros (u & v & w & -> & Hu & Hv & Hw).
    apply plus_nonspace_iff in Hu, Hv, Hw.
    repeat (constructor; try assumption); now apply lit_iff.
Qed.

Lemma emailPattern_test s : test emailPattern s = true <-> emailShaped s.
Proof.
  rewrite test_iff. unfold emailShaped. split.
  - intros (pre & m & post & -> & Hm).
    apply emailPattern_matches in Hm as (u & v & w & -> & Hu & Hv & Hw).
    exists pre, u, v, w, post. split; [|auto].
    now rewrite !append_assoc.
  - intros (pre & u & v & w & post & -> & Hu & Hv & Hw).
    exists pre, (u +:+ "@" +:+ v +:+ "." +:+ w), post. split.
    + now rewrite !append_assoc.
    + apply emailPattern_matches. now exists u, v, w.
Qed.

Lemma emailShaped_not_blank s : emailShaped s -> trim s <> "".
Proof.
  intros (pre & u & v & w & post & -> & Hu & _).
  now apply nonSpaceRun_not_blank.
Qed.

End EmailFacts.

(** ** The contact form *)

Section ContactFacts.
Import JS Regex Contact.

Lemma validateForm_run w :
  validateForm w =
    (Nat.eqb (size (errorsOf (form w))) 0,
     {| status := status w; error_ := error_ w; form := form w;
        formErrors := errorsOf (form w); requests := requests w |}).
Proof. reflexivity. Qed.

Lemma validateForm_true_iff w :
  eval validateForm w = true <-> errorsOf (form w) = ∅.
Proof.
  unfold eval. rewrite validateForm_run. simpl.
  rewrite Nat.eqb_eq. apply map_size_empty_iff.
Qed.

Lemma validateForm_false_iff w :
  eval validateForm w = false <-> errorsOf (form w) <> ∅.
Proof.
  rewrite <- validateForm_true_iff. destruct (eval validateForm w); split; congruence.
Qed.

(** Which fields get an error. *)
Lemma errorsOf_fields f :
  (is_Some (errorsOf f !! "name") <-> trim (name f) = "") /\
  (is_Some (errorsOf f !! "email") <->
     trim (email f) = "" \/ test emailPattern (email f) = false) /\
  (is_Some (errorsOf f !! "message") <-> trim (message f) = "").
Proof.
  unfold errorsOf.
  destruct (falsy (trim (name f))) eqn:Hn;
    destruct (falsy (trim (email f))) eqn:He;
    destruct (test emailPattern (email f)) eqn:Ht;
    destruct (falsy (trim (message f))) eqn:Hm;
    cbn [negb];
    repeat match goal with
           | H : falsy _ = true |- _ => apply falsy_iff in H
           | H : falsy ?s = false |- _ =>
               assert (s <> "") by (intros E; apply falsy_iff in E; congruence);
               clear H
           end;
    (split; [|split]);
    (split;
     [ intros [x Hx];
       repeat (rewrite lookup_insert_ne in Hx by discriminate);
       try (rewrite lookup_empty in Hx; discriminate);
       tauto
     | intros Hb;
       repeat (rewrite lookup_insert_ne by discriminate);
       try (rewrite lookup_insert_eq; eauto; fail);
       try (destruct Hb); congruence ]).
Qed.

Lemma errorsOf_empty_iff f :
  errorsOf f = ∅ <->
  trim (name f) <> "" /\ trim (email f) <> "" /\
  test emailPattern (email f) = true /\ trim (message f) <> "".
Proof.
  destruct (errorsOf_fields f) as (Hn & He & Hm). split.
  - intros Hempty. rewrite Hempty in Hn, He, Hm.
    rewrite lookup_empty in Hn, He, Hm.
    assert (Hnone : ~ is_Some (@None string)) by (intros [x Hx]; discriminate).
    repeat split.
    + intros Hb. apply Hnone, Hn, Hb.
    + intros Hb. apply Hnone, He. now left.
    + destruct (test emailPattern (email f)) eqn:Ht; [reflexivity|].
      exfalso. apply Hnone, He. now right.
    + intros Hb. apply Hnone, Hm, Hb.
  - intros (Hn' & He' & Ht & Hm'). unfold errorsOf.
    destruct (falsy (trim (name f))) eqn:Fn;
      [apply falsy_iff in Fn; contradiction|].
    destruct (falsy (trim (email f))) eqn:Fe;
      [apply falsy_iff in Fe; contradiction|].
    destruct (falsy (trim (message f))) eqn:Fm;
      [apply falsy_iff in Fm; contradiction|].
    now rewrite Ht.
Qed.

Lemma onSubmit_invalid API_BASE reply w :
  eval validateForm w = false ->
  onSubmit API_BASE reply w =
    (tt, {| status := status w; error_ := error_ w; form := form w;
            formErrors := errorsOf (form w); requests := requests w |}).
Proof.
  unfold eval. rewrite validateForm_run. simpl. intros Hv.
  unfold onSubmit, onSubmit_request, mbind, state_bind.
  rewrite validateForm_run, Hv. reflexivity.
Qed.

Lemma onSubmit_valid API_BASE reply w :
  eval validateForm w = true ->
  onSubmit API_BASE reply w =
    onSubmit_settle reply
      {| status := submitting; error_ := ""; form := form w;
         formErrors := errorsOf (form w);
         requests := requests w ++ [contactRequest API_BASE (form w)] |}.
Proof.
  unfold eval. rewrite validateForm_run. simpl. intros Hv.
  unfold onSubmit, onSubmit_request, mbind, state_bind.
  rewrite validateForm_run, Hv. reflexivity.
Qed.

End ContactFacts.

(** ** Validation and submission *)

Section Submission.
Import JS Regex Contact.

(** C6: for a submission that passes validation, the request is posted
    with the form as its body; a response with a status from 200 to 299
    gives the state [success] and clears the three fields; a response with
    any other status, and a request that fails in transport, gives the state
    [error] with the one generic message and leaves the three fields as they
    were. *)
Theorem onSubmit_success_or_generic_error
    (API_BASE : string) (reply : FetchResult) (w : World) :
  eval validateForm w = true ->
  let w' := exec (onSubmit API_BASE reply) w in
  requests w' = (requests w ++ [contactRequest API_BASE (form w)])%list /\
  (forall code, reply = Response code -> (200 <= code <= 299)%Z ->
     status w' = success /\ form w' = emptyForm) /\
  (forall code, reply = Response code -> ~ (200 <= code <= 299)%Z ->
     status w' = error /\ error_ w' = genericError /\ form w' = form w) /\
  (reply = Rejected ->
     status w' = error /\ error_ w' = genericError /\ form w' = form w).
Proof.
  intros Hv w'. subst w'. unfold exec. rewrite (onSubmit_valid _ _ _ Hv).
  destruct reply as [code|]; simpl.
  - unfold ok.
    destruct (200 <=? code)%Z eqn:Hlo; destruct (code <=? 299)%Z eqn:Hhi; simpl;
      (split; [reflexivity|]);
      (split; [intros c [= <-] Hc | split; [intros c [= <-] Hc | discriminate]]);
      try (repeat split; reflexivity); lia.
  - split; [reflexivity|].
    split; [discriminate|]. split; [discriminate|]. now intros _.
Qed.

Lemma onSubmit_success_or_generic_error_witness :
  let w := exec (setForm {| name := "Ann"; email := "ann@example.com";
                            message := "Hello" |}) mount in
  let w' := exec (onSubmit "https://api.example.com" (Response 500)) w in
  eval validateForm w = true /\
  requests w' =
    (requests w ++ [contactRequest "https://api.example.com" (form w)])%list /\
  (forall code, Response 500 = Response code -> (200 <= code <= 299)%Z ->
     status w' = success /\ form w' = emptyForm) /\
  (forall code, Response 500 = Response code -> ~ (200 <= code <= 299)%Z ->
     status w' = error /\ error_ w' = genericError /\ form w' = form w) /\
  (Response 500 = Rejected ->
     status w' = error /\ error_ w' = genericError /\ form w' = form w).
Proof.
  split; [vm_compute; reflexivity|].
  apply (onSubmit_success_or_generic_error "https://api.example.com" (Response 500)
           (exec (setForm {| name := "Ann"; email := "ann@example.com";
                             message := "Hello" |}) mount)).
  vm_compute. reflexivity.
Defined.

(** C7 as it is worded fails: a name of one space is not empty and the
    e-mail passes the pattern, yet validation raises an error, because the
    fields are trimmed before they are tested. *)
Lemma validation_empty_field_counterexample :
  let w := exec (setForm {| name := " "; email := "a@b.c"; message := "hi" |}) mount in
  eval validateForm w = false /\
  formErrors (exec validateForm w) = {[ "name" := "Name is required" ]} /\
  ~ (name (form w) = "" \/ email (form w) = "" \/ message (form w) = "" \/
     test emailPattern (email (form w)) = false).
Proof.
  split; [vm_compute; reflexivity|]. split; [reflexivity|].
  vm_compute. intros [H|[H|[H|H]]]; discriminate.
Qed.

(** C7, amended: submitting with the three fields empty gives the three
    field errors, sends no request and leaves the submission state as it
    was; validation raises an error exactly when a required field is blank
    (empty once trimmed, that is empty or white space only) or the e-mail
    fails the pattern; and a failed validation changes neither the
    submission state nor the fields and sends nothing. *)
Theorem validation_gates_submission :
  (forall API_BASE reply w,
     form w = emptyForm ->
     let w' := exec (onSubmit API_BASE reply) w in
     formErrors w' =
       <["message" := "Message is required"]>
         (<["email" := "Email is required"]>
            (<["name" := "Name is required"]> ∅)) /\
     size (formErrors w') = 3 /\
     requests w' = requests w /\
     status w' = status w) /\
  (forall w,
     eval validateForm w = false <->
     trim (name (form w)) = "" \/ trim (email (form w)) = "" \/
     trim (message (form w)) = "" \/
     test emailPattern (email (form w)) = false) /\
  (forall s, trim s = "" <-> allIn isWhiteSpace s = true) /\
  (forall API_BASE reply w,
     eval validateForm w = false ->
     let w' := exec (onSubmit API_BASE reply) w in
     status w' = status w /\ requests w' = requests w /\ form w' = form w /\
     formErrors w' = errorsOf (form w)).
Proof.
  split; [|split; [|split]].
  - intros API_BASE reply w Hf w'. subst w'.
    assert (Hv : eval validateForm w = false).
    { unfold eval. rewrite validateForm_run, Hf. reflexivity. }
    unfold exec. rewrite (onSubmit_invalid _ _ _ Hv). simpl. rewrite Hf.
    repeat split; reflexivity.
  - intros w. rewrite validateForm_false_iff, errorsOf_empty_iff.
    destruct (test emailPattern (email (form w))); split.
    + intros Hn.
      destruct (String.eq_dec (trim (name (form w))) "") as [|Hn1]; [tauto|].
      destruct (String.eq_dec (trim (email (form w))) "") as [|Hn2]; [tauto|].
      destruct (String.eq_dec (trim (message (form w))) "") as [|Hn3]; [tauto|].
      exfalso. apply Hn. tauto.
    + intros [H|[H|[H|H]]] (H1 & H2 & _ & H3); congruence.
    + intros _. now do 3 right.
    + intros _ (_ & _ & H & _). discriminate.
  - exact trim_empty_iff.
  - intros API_BASE reply w Hv w'. subst w'.
    unfold exec. rewrite (onSubmit_invalid _ _ _ Hv). simpl.
    repeat split; reflexivity.
Qed.

Lemma validation_gates_submission_witness :
  let w := exec (setStatus error) mount in
  let w' := exec (onSubmit "" Rejected) w in
  form w = emptyForm /\
  eval validateForm w = false /\
  size (formErrors w') = 3 /\
  requests w' = requests w /\
  status w' = error.
Proof.
  split; [reflexivity|]. split; [vm_compute; reflexivity|].
  destruct (proj1 validation_gates_submission "" Rejected
              (exec (setStatus error) mount) eq_refl) as (_ & Hsize & Hreq & Hst).
  split; [exact Hsize|]. split; [exact Hreq | exact Hst].
Defined.

(** C10: the pattern check is not anchored.  An e-mail value that has,
    anywhere in it, a run of non-space characters, an at sign, a run of
    non-space characters, a dot and a run of non-space characters passes
    [test]; with a name and a message that are not blank the form passes
    validation and the value is posted as it stands.  The value
    ["junk a@b.c junk"] is one of these. *)
Theorem emailPattern_is_unanchored
    (pre u v w post : string) (API_BASE : string) (w0 : World) :
  nonSpaceRun u -> nonSpaceRun v -> nonSpaceRun w ->
  email (form w0) = pre +:+ u +:+ "@" +:+ v +:+ "." +:+ w +:+ post ->
  trim (name (form w0)) <> "" ->
  trim (message (form w0)) <> "" ->
  test emailPattern (email (form w0)) = true /\
  eval validateForm w0 = true /\
  eval (onSubmit_request API_BASE) w0 = true /\
  requests (exec (onSubmit_request API_BASE) w0) =
    (requests w0 ++ [contactRequest API_BASE (form w0)])%list /\
  test emailPattern "junk a@b.c junk" = true.
Proof.
  intros Hu Hv Hw He Hn Hm.
  assert (Hshaped : emailShaped (email (form w0))).
  { rewrite He. now exists pre, u, v, w, post. }
  assert (Ht : test emailPattern (email (form w0)) = true)
    by now apply emailPattern_test.
  assert (Hvalid : eval validateForm w0 = true).
  { apply validateForm_true_iff, errorsOf_empty_iff.
    repeat split; try assumption. now apply emailShaped_not_blank. }
  split; [exact Ht|]. split; [exact Hvalid|].
  unfold eval in Hvalid. rewrite validateForm_run in Hvalid. simpl in Hvalid.
  unfold eval, exec, onSubmit_request, mbind, state_bind.
  rewrite validateForm_run, Hvalid.
  split; [reflexivity|]. split; [reflexivity|].
  vm_compute. reflexivity.
Qed.

Lemma emailPattern_is_unanchored_witness :
  let w0 := exec (setForm {| name := "Ann"; email := "junk a@b.c junk";
                             message := "Hello" |}) mount in
  (nonSpaceRun "a" /\ nonSpaceRun "b" /\ nonSpaceRun "c") /\
  test emailPattern (email (form w0)) = true /\
  eval validateForm w0 = true /\
  eval (onSubmit_request "") w0 = true /\
  map (fun r => email (body r)) (requests (exec (onSubmit_request "") w0)) =
    ["junk a@b.c junk"].
Proof.
  assert (Hrun : forall c : ascii, isWhiteSpace c = false -> nonSpaceRun (String c "")).
  { intros c Hc. split; [discriminate|]. simpl. now rewrite Hc. }
  assert (Ha : nonSpaceRun "a") by (apply Hrun; reflexivity).
  assert (Hb : nonSpaceRun "b") by (apply Hrun; reflexivity).
  assert (Hc : nonSpaceRun "c") by (apply Hrun; reflexivity).
  split; [now repeat split|].
  destruct (emailPattern_is_unanchored "junk " "a" "b" "c" " junk" ""
              (exec (setForm {| name := "Ann"; email := "junk a@b.c junk";
                                message := "Hello" |}) mount)
              Ha Hb Hc eq_refl) as (Ht & Hvalid & Hsent & Hreq & _).
  - vm_compute. discriminate.
  - vm_compute. discriminate.
  - split; [exact Ht|]. split; [exact Hvalid|]. split; [exact Hsent|].
    rewrite Hreq. reflexivity.
Defined.

End Submission.

(** ** More on path normalisation *)

Section NormalisationMore.
Import JS Router Regex.

Lemma trimStart_space_append pre s :
  allIn isWhiteSpace pre = true -> trimStart (pre +:+ s) = trimStart s.
Proof.
  induction pre as [|c pre IH]; [reflexivity|].
  cbn [allIn]. rewrite andb_true_iff. intros [Hc Hpre].
  rewrite append_cons. cbn [trimStart]. rewrite Hc. now apply IH.
Qed.

Lemma trimEnd_append_space s post :
  allIn isWhiteSpace post = true -> trimEnd (s +:+ post) = trimEnd s.
Proof.
  intros Hpost. induction s as [|c s IH].
  - now apply trimEnd_empty_iff.
  - rewrite append_cons. cbn [trimEnd]. now rewrite IH.
Qed.

Lemma trimStart_append s post :
  trimStart s <> "" -> trimStart (s +:+ post) = trimStart s +:+ post.
Proof.
  induction s as [|c s IH]; [intros H; now destruct H|].
  rewrite append_cons. cbn [trimStart].
  destruct (isWhiteSpace c); [exact IH | reflexivity].
Qed.

(** White space around a string does not show after [trim]. *)
Lemma trim_padding pre s post :
  allIn isWhiteSpace pre = true -> allIn isWhiteSpace post = true ->
  trim (pre +:+ s +:+ post) = trim s.
Proof.
  intros Hpre Hpost. unfold trim.
  rewrite trimStart_space_append by exact Hpre.
  destruct (String.eq_dec (trimStart s) "") as [He|Hne].
  - rewrite He. apply trimStart_empty_iff in He.
    assert (Hall : allIn isWhiteSpace (s +:+ post) = true)
      by (rewrite allIn_append, He, Hpost; reflexivity).
    apply trimStart_empty_iff in Hall. now rewrite Hall.
  - rewrite trimStart_append by exact Hne.
    now apply trimEnd_append_space.
Qed.

(** [parsePathFrom] looks at its argument through [trim] only. *)
Lemma parsePathFrom_via_trim s :
  parsePathFrom (Some s) =
    if falsy (trim s) then "/"
    else if startsWith (trim s) "/" then trim s else "/" +:+ trim s.
Proof.
  unfold parsePathFrom. destruct s as [|c s]; [reflexivity|].
  simpl orElse. destruct (trim (String c s)); reflexivity.
Qed.

(** X1: white space before and after the argument makes no difference to
    [parsePathFrom]. *)
Theorem parsePathFrom_ignores_padding (pre s post : string) :
  allIn isWhiteSpace pre = true -> allIn isWhiteSpace post = true ->
  parsePathFrom (Some (pre +:+ s +:+ post)) = parsePathFrom (Some s).
Proof.
  intros Hpre Hpost.
  rewrite !parsePathFrom_via_trim.
  now rewrite (trim_padding pre s post Hpre Hpost).
Qed.

Lemma parsePathFrom_ignores_padding_witness :
  allIn isWhiteSpace "  " = true /\
  allIn isWhiteSpace (String "009" (String "010" "")) = true /\
  parsePathFrom (Some ("  " +:+ "about?x=1" +:+ String "009" (String "010" ""))) =
    parsePathFrom (Some "about?x=1").
Proof.
  split; [reflexivity|]. split; [reflexivity|].
  apply (parsePathFrom_ignores_padding "  " "about?x=1"
           (String "009" (String "010" ""))); reflexivity.
Defined.

(** X2: the paths [parsePathFrom] returns unchanged are exactly the
    strings that start with a slash and have no white space at either
    end. *)
Theorem parsePathFrom_fixed_points (s : string) :
  parsePathFrom (Some s) = s <-> startsWith s "/" = true /\ trimmed s.
Proof.
  split.
  - intros Hfix. rewrite <- Hfix. split.
    + destruct (parsePathFrom_slash (Some s)) as [t ->]. apply startsWith_slash.
    + apply parsePathFrom_trimmed.
  - intros [Hs Ht]. now apply parsePathFrom_fixed.
Qed.

End NormalisationMore.

(** ** What trimming is *)

Section Trimming.
Import JS Router Regex.

Lemma trimStart_decompose s :
  exists pre, s = pre +:+ trimStart s /\ allIn isWhiteSpace pre = true.
Proof.
  induction s as [|c s (pre & Hs & Hpre)]; [now exists ""|].
  cbn [trimStart]. destruct (isWhiteSpace c) eqn:Hc.
  - exists (String c pre). rewrite append_cons, <- Hs. split; [reflexivity|].
    cbn [allIn]. now rewrite Hc, Hpre.
  - now exists "".
Qed.

Lemma trimEnd_decompose s :
  exists post, s = trimEnd s +:+ post /\ allIn isWhiteSpace post = true.
Proof.
  induction s as [|c s (post & Hs & Hpost)]; [now exists ""|].
  cbn [trimEnd]. destruct (trimEnd s) as [|d t] eqn:Ht.
  - assert (Hall : allIn isWhiteSpace s = true) by now apply trimEnd_empty_iff.
    destruct (isWhiteSpace c) eqn:Hc.
    + exists (String c s). split; [reflexivity|]. cbn [allIn]. now rewrite Hc, Hall.
    + exists s. split; [reflexivity | exact Hall].
  - exists post. rewrite append_cons, <- Hs. now split.
Qed.

Lemma trimEnd_last s : forall r c,
  trimEnd s = r +:+ String c "" -> isWhiteSpace c = false.
Proof.
  induction s as [|d s IH]; intros r c He.
  - destruct r; discriminate.
  - cbn [trimEnd] in He. destruct (trimEnd s) as [|e t] eqn:Ht.
    + destruct (isWhiteSpace d) eqn:Hd; [destruct r; discriminate|].
      destruct r as [|x r]; [now injection He as <-|].
      rewrite append_cons in He. injection He as _ He. destruct r; discriminate.
    + destruct r as [|x r]; [discriminate|].
      rewrite append_cons in He. injection He as _ He. exact (IH r c He).
Qed.

Lemma trim_edgeFree s : edgeFree (trim s).
Proof.
  unfold trim. split.
  - intros c r He.
    destruct (trimStart_head s) as [Hs|(c' & t & Hs & Hc')]; rewrite Hs in He;
      [discriminate|].
    destruct (trimEnd_head c' t) as [Hn|[u Hu]]; rewrite He in *; [discriminate|].
    now injection Hu as ->.
  - intros r c He. exact (trimEnd_last _ r c He).
Qed.

Lemma trim_decompose s :
  exists pre post,
    s = pre +:+ trim s +:+ post /\
    allIn isWhiteSpace pre = true /\ allIn isWhiteSpace post = true.
Proof.
  destruct (trimStart_decompose s) as (pre & Hs & Hpre).
  destruct (trimEnd_decompose (trimStart s)) as (post & Ht & Hpost).
  exists pre, post. unfold trim. now rewrite <- Ht.
Qed.

Lemma isWhiteSpace_codes c :
  isWhiteSpace c = true <-> In (N_of_ascii c) [9; 10; 11; 12; 13; 32; 160]%N.
Proof.
  destruct c as [[] [] [] [] [] [] [] []]; vm_compute;
    (split;
     [ intros H; first [discriminate H | auto 10]
     | intros H; first [reflexivity | intuition discriminate] ]).
Qed.

(** C4: [parsePathFrom] is defined on every input and does what the
    specification says.  The input is trimmed of white space: every string
    is some white space, a rest that neither starts nor ends with white
    space, and some white space again, and the result is made from that
    rest alone: an empty rest (and [undefined]) gives ["/"], a rest that
    starts with a slash is returned as it is, query included, any other rest
    gets a slash in front.  White space is TAB, LF, VT, FF, CR, SP and NBSP.
    The examples of the specification hold, with and without white space
    around them; every result starts with a slash and is not empty. *)
Theorem parsePathFrom_meets_spec :
  (forall input, parsePathFrom input = normalize_spec input) /\
  (forall s, exists pre t post,
     s = pre +:+ t +:+ post /\
     allIn isWhiteSpace pre = true /\ allIn isWhiteSpace post = true /\
     edgeFree t /\
     parsePathFrom (Some s) =
       (if falsy t then "/" else if startsWith t "/" then t else "/" +:+ t)) /\
  (forall c, isWhiteSpace c = true <->
             In (N_of_ascii c) [9; 10; 11; 12; 13; 32; 160]%N) /\
  parsePathFrom None = "/" /\
  parsePathFrom (Some "") = "/" /\
  parsePathFrom (Some "about") = "/about" /\
  parsePathFrom (Some "/terms?x=1") = "/terms?x=1" /\
  parsePathFrom (Some "   ") = "/" /\
  parsePathFrom (Some " /about ") = "/about" /\
  parsePathFrom (Some (String "009" (String "010" "about" +:+ String "013" (String "160" ""))))
    = "/about" /\
  parsePathFrom (Some (String "011" " /terms?x=1 " +:+ String "012" "")) = "/terms?x=1" /\
  parsePathFrom (Some " a b ") = "/a b" /\
  (forall input,
     startsWith (parsePathFrom input) "/" = true /\ parsePathFrom input <> "").
Proof.
  split; [|split; [|split; [exact isWhiteSpace_codes|]]].
  - intros [s|]; [|reflexivity].
    unfold normalize_spec, parsePathFrom.
    destruct s as [|c s]; [reflexivity|].
    simpl orElse.
    destruct (trim (String c s)) as [|d t]; reflexivity.
  - intros s. destruct (trim_decompose s) as (pre & post & Hs & Hpre & Hpost).
    exists pre, (trim s), post.
    split; [exact Hs|]. split; [exact Hpre|]. split; [exact Hpost|].
    split; [apply trim_edgeFree | apply parsePathFrom_via_trim].
  - repeat (split; [reflexivity|]).
    intros input. destruct (parsePathFrom_slash input) as [t ->].
    split; [apply startsWith_slash | discriminate].
Qed.

End Trimming.

(** ** Sessions of the router *)

Section Sessions.
Import JS Router Session.

Lemma exec_bind {S A B} (m : state S A) (k : A -> state S B) (s : S) :
  exec (m ≫= k) s = exec (k (eval m s)) (exec m s).
Proof. unfold exec, eval, mbind, state_bind. now destruct (m s). Qed.

Lemma traverse_run loc w :
  exec (traverse loc) w =
    {| location := loc; resolveURL := resolveURL w; pushed := pushed w;
       popstates := S (popstates w); uncaught := uncaught w;
       route := parsePathFrom (Some (pathname loc +:+ search loc));
       loading := loading w;
       handleRoute := handleRoute w; handleLoading := handleLoading w;
       now := now w; timers := timers w |}.
Proof. reflexivity. Qed.

Lemma setLoading_false_twice w :
  exec (setLoading false) (exec (setLoading false) w) = exec (setLoading false) w.
Proof. reflexivity. Qed.

(** Running the callbacks that are due: one is as good as many. *)
Lemma run_due (l : list Timer) : forall w,
  foldl (fun acc tm => exec (runCallback (callback tm)) acc) w l =
    match l with [] => w | _ :: _ => exec (setLoading false) w end.
Proof.
  induction l as [|tm l IH]; intros w; [reflexivity|].
  cbn [foldl]. rewrite IH. destruct tm as [d []]. cbn [callback runCallback].
  destruct l; reflexivity.
Qed.

Lemma advance_run dt w :
  exec (advance dt) w =
    {| location := location w; resolveURL := resolveURL w; pushed := pushed w;
       popstates := popstates w; uncaught := uncaught w;
       route := route w;
       loading := match filter (fun tm => isDue (now w + dt) tm = true) (timers w) with
                  | [] => loading w
                  | _ :: _ => false
                  end;
       handleRoute := handleRoute w; handleLoading := handleLoading w;
       now := (now w + dt)%Z;
       timers := filter (fun tm => isDue (now w + dt) tm = false) (timers w) |}.
Proof.
  unfold exec, advance. cbn [snd]. rewrite run_due.
  destruct (filter (fun tm => isDue (now w + dt) tm = true) (timers w)); reflexivity.
Qed.

(** No event changes the way the browser reads URLs. *)
Lemma handle_resolveURL ev w : resolveURL (exec (handle ev) w) = resolveURL w.
Proof.
  destruct ev as [to options|loc|dt]; cbn [handle].
  - rewrite navigate_run.
    destruct (strictNe (parsePathFrom to) (eval locationPath w)); [|reflexivity].
    now destruct (resolveURL w (parsePathFrom to)).
  - now rewrite traverse_run.
  - now rewrite advance_run.
Qed.

(** A property that every event keeps holds after any session. *)
Lemma handleAll_keeps (P : World -> Prop) (Q : Event -> Prop) :
  (forall ev w, Q ev -> P w -> P (exec (handle ev) w)) ->
  forall evs w, Forall Q evs -> P w -> P (exec (handleAll evs) w).
Proof.
  intros Hstep. induction evs as [|ev evs IH]; intros w Hq Hp; [exact Hp|].
  apply Forall_cons in Hq as [Hev Hevs].
  cbn [handleAll]. rewrite exec_bind. apply IH; [exact Hevs|].
  now apply Hstep.
Qed.

(** The same for a property that is stated with the browser of the
    world the session starts in. *)
Lemma handleAll_keeps_in (w0 : World) (P : World -> Prop) (Q : World -> Event -> Prop) :
  (forall ev w, resolveURL w = resolveURL w0 -> Q w0 ev -> P w -> P (exec (handle ev) w)) ->
  forall evs, Forall (Q w0) evs -> P w0 -> P (exec (handleAll evs) w0).
Proof.
  intros Hstep evs Hq Hp.
  pose proof (handleAll_keeps (fun w => resolveURL w = resolveURL w0 /\ P w) (Q w0))
    as Hkeep.
  cbv beta in Hkeep. apply (Hkeep) with (evs := evs) (w := w0); [|exact Hq|now split].
  intros ev w Hev [Hres Hw]. split.
  - now rewrite handle_resolveURL.
  - now apply Hstep.
Qed.

Lemma parsePathFrom_normalised path : normalised (parsePathFrom path).
Proof.
  split; [|apply parsePathFrom_trimmed].
  destruct (parsePathFrom_slash path) as [t ->]. apply startsWith_slash.
Qed.

Lemma handle_route_normalised ev w :
  normalised (route w) -> normalised (route (exec (handle ev) w)).
Proof.
  intros Hw. destruct ev as [to options|loc|dt]; cbn [handle].
  - rewrite navigate_run.
    destruct (strictNe (parsePathFrom to) (eval locationPath w)); [|exact Hw].
    destruct (resolveURL w (parsePathFrom to)); [|exact Hw].
    apply parsePathFrom_normalised.
  - rewrite traverse_run. apply parsePathFrom_normalised.
  - rewrite advance_run. exact Hw.
Qed.

Lemma session_route_normalised loc evs :
  normalised (route (exec (handleAll evs) (mount loc))).
Proof.
  apply (handleAll_keeps (fun w => normalised (route w)) (fun _ => True)).
  - intros ev w0 _. apply handle_route_normalised.
  - clear. induction evs; constructor; auto.
  - apply parsePathFrom_normalised.
Qed.

(** X3: whatever happens to the provider (navigations to any target,
    history traversals to any location, timers running), the route it holds
    starts with a slash, has no white space at the ends, is not empty, and
    is a fixed point of [parsePathFrom]. *)
Theorem route_always_normalised (loc : Location) (evs : list Event) :
  let w := exec (handleAll evs) (mount loc) in
  startsWith (route w) "/" = true /\
  trimmed (route w) /\
  route w <> "" /\
  parsePathFrom (Some (route w)) = route w.
Proof.
  intros w.
  destruct (session_route_normalised loc evs) as [Hs Ht]. fold w in Hs, Ht.
  split; [exact Hs|]. split; [exact Ht|]. split.
  - intros He. rewrite He in Hs. discriminate.
  - now apply parsePathFrom_fixed.
Qed.

Lemma filter_none_due t (l : list Timer) :
  filter (fun tm => isDue t tm = true) l = [] ->
  filter (fun tm => isDue t tm = false) l = l.
Proof.
  induction l as [|tm l IH]; [reflexivity|].
  rewrite !filter_cons. destruct (isDue t tm) eqn:Hd.
  - rewrite decide_True by reflexivity. discriminate.
  - rewrite decide_False by discriminate. rewrite decide_True by reflexivity.
    intros Hl. now rewrite IH.
Qed.

Lemma filter_all_due t (l : list Timer) :
  Forall (fun tm => isDue t tm = true) l ->
  filter (fun tm => isDue t tm = true) l = l /\
  filter (fun tm => isDue t tm = false) l = [].
Proof.
  induction 1 as [|tm l Hd _ [IH1 IH2]]; [now split|].
  rewrite !filter_cons, Hd.
  rewrite decide_True by reflexivity. rewrite decide_False by discriminate.
  now rewrite IH1, IH2.
Qed.

Lemma mount_loaderBacked loc : loaderBacked (mount loc).
Proof. split; [constructor | discriminate]. Qed.

Lemma handle_loaderBacked ev w :
  forward ev -> welcome w ev -> loaderBacked w -> loaderBacked (exec (handle ev) w).
Proof.
  intros Hev Hwel [Hdue Hback]. destruct ev as [to options|loc|dt]; cbn [handle].
  - rewrite navigate_run.
    destruct (strictNe (parsePathFrom to) (eval locationPath w)); [|now split].
    cbn [welcome] in Hwel. destruct Hwel as [l Hl]. rewrite Hl.
    destruct options as [[|]]; cbn [showLoader orb].
    + split; cbn [timers now loading].
      * apply Forall_app. split; [exact Hdue|].
        constructor; [cbn [due]; lia | constructor].
      * intros _ He. now apply app_eq_nil in He as [_ He].
    + now split.
  - rewrite traverse_run. now split.
  - cbn [forward] in Hev. rewrite advance_run. split; cbn [timers now loading].
    + apply Forall_forall. intros tm Hin.
      apply list_elem_of_filter in Hin as [Hnot Hin].
      rewrite Forall_forall in Hdue. specialize (Hdue tm Hin).
      unfold isDue in Hnot. apply Z.leb_gt in Hnot. lia.
    + destruct (filter (fun tm => isDue (now w + dt) tm = true) (timers w)) eqn:Hf;
        [|discriminate].
      rewrite (filter_none_due _ _ Hf). exact Hback.
Qed.

Lemma welcome_same_browser w w0 ev :
  resolveURL w = resolveURL w0 -> welcome w0 ev -> welcome w ev.
Proof.
  intros Hres. destruct ev; cbn [welcome]; unfold accepted; try rewrite Hres; auto.
Qed.

(** X4: when every navigation of a session went to a URL the browser
    shows, then, once the event loop has been idle for 300 ms, the loading
    flag is down and no callback is left: the loader cannot stay up. *)
Theorem loader_clears_when_idle (loc : Location) (evs : list Event) (dt : Z) :
  Forall forward evs ->
  Forall (welcome (mount loc)) evs ->
  (300 <= dt)%Z ->
  let w := exec (advance dt) (exec (handleAll evs) (mount loc)) in
  loading w = false /\ timers w = [].
Proof.
  intros Hfw Hwel Hdt w.
  assert (Hinv : loaderBacked (exec (handleAll evs) (mount loc))).
  { apply (handleAll_keeps_in (mount loc) loaderBacked
             (fun w0 ev => forward ev /\ welcome w0 ev)).
    - intros ev w1 Hres [Hf Hw]. apply handle_loaderBacked; [exact Hf|].
      now apply (welcome_same_browser w1 (mount loc)).
    - apply Forall_and. now split.
    - apply mount_loaderBacked. }
  subst w. rewrite advance_run. cbn [loading timers].
  destruct Hinv as [Hdue Hback].
  set (w0 := exec (handleAll evs) (mount loc)) in *.
  assert (Hall : Forall (fun tm => isDue (now w0 + dt) tm = true) (timers w0)).
  { eapply Forall_impl; [exact Hdue|]. intros tm Htm. cbv beta in Htm.
    unfold isDue. apply Z.leb_le. lia. }
  destruct (filter_all_due _ _ Hall) as [Hyes Hno].
  rewrite Hyes, Hno. split; [|reflexivity].
  destruct (timers w0) eqn:Ht; [|reflexivity].
  destruct (loading w0); [|reflexivity].
  now destruct Hback.
Qed.

Lemma loader_clears_when_idle_witness :
  let evs := [Navigate (Some "about") {| showLoader := true |}; Idle 100;
              Navigate (Some "brands") {| showLoader := true |}; Idle 50] in
  let root := {| pathname := "/"; search := "" |} in
  Forall forward evs /\
  Forall (welcome (mount root)) evs /\
  loading (exec (handleAll evs) (mount root)) = true /\
  loading (exec (advance 300) (exec (handleAll evs) (mount root))) = false /\
  timers (exec (advance 300) (exec (handleAll evs) (mount root))) = [].
Proof.
  assert (Hfw : Forall forward
                  [Navigate (Some "about") {| showLoader := true |}; Idle 100;
                   Navigate (Some "brands") {| showLoader := true |}; Idle 50]).
  { repeat constructor; cbn; lia. }
  assert (Hwel : Forall (welcome (mount {| pathname := "/"; search := "" |}))
                  [Navigate (Some "about") {| showLoader := true |}; Idle 100;
                   Navigate (Some "brands") {| showLoader := true |}; Idle 50]).
  { repeat constructor; cbn [welcome]; unfold accepted; vm_compute; eauto. }
  split; [exact Hfw|]. split; [exact Hwel|]. split; [reflexivity|].
  apply (loader_clears_when_idle {| pathname := "/"; search := "" |} _ 300 Hfw Hwel).
  lia.
Defined.

(** X5: with nothing pending, a click on a link that leads away from the
    current location, to a URL the browser shows, puts the loading flag up
    and it stays up for exactly 300 ms; a click on a link to the current
    location changes nothing. *)
Theorem navlink_click_shows_loader_300ms (to : string) (w : World) (dt : Z) :
  timers w = [] ->
  (parsePathFrom (Some to) <> eval locationPath w ->
     accepted w (parsePathFrom (Some to)) ->
     let w' := exec (advance dt) (exec (NavLink.onClick to) w) in
     loading (exec (NavLink.onClick to) w) = true /\
     route w' = parsePathFrom (Some to) /\
     loading w' = (dt <? 300)%Z) /\
  (parsePathFrom (Some to) = eval locationPath w ->
     exec (NavLink.onClick to) w = w).
Proof.
  intros Hquiet. unfold NavLink.onClick. split.
  - intros Hcur [loc Hloc]. apply strictNe_true in Hcur. cbv zeta.
    rewrite advance_run, navigate_run, Hcur, Hloc.
    cbn [showLoader timers loading now route orb].
    rewrite Hquiet. split; [reflexivity|]. split; [reflexivity|].
    assert (Hd : isDue (now w + dt) {| due := now w + 300; callback := ClearLoading |}
                 = negb (dt <? 300)%Z).
    { unfold isDue. cbn [due].
      destruct (Z.ltb_spec dt 300); cbn [negb]; [apply Z.leb_gt | apply Z.leb_le]; lia. }
    cbn [app]. rewrite filter_cons, filter_nil, Hd.
    destruct (dt <? 300)%Z; cbn [negb].
    + now rewrite decide_False by discriminate.
    + now rewrite decide_True by reflexivity.
  - intros Hcur. apply strictNe_false in Hcur. now rewrite navigate_run, Hcur.
Qed.

Lemma navlink_click_shows_loader_300ms_witness :
  let w := mount {| pathname := "/"; search := "" |} in
  timers w = [] /\
  parsePathFrom (Some "/media") <> eval locationPath w /\
  accepted w (parsePathFrom (Some "/media")) /\
  loading (exec (advance 299) (exec (NavLink.onClick "/media") w)) = true /\
  loading (exec (advance 300) (exec (NavLink.onClick "/media") w)) = false /\
  exec (NavLink.onClick "/") w = w.
Proof.
  assert (Hacc : accepted (mount {| pathname := "/"; search := "" |})
                          (parsePathFrom (Some "/media")))
    by (unfold accepted; vm_compute; eauto).
  split; [reflexivity|]. split; [discriminate|]. split; [exact Hacc|].
  destruct (navlink_click_shows_loader_300ms "/media"
              (mount {| pathname := "/"; search := "" |}) 299 eq_refl)
    as [Haway _].
  destruct (navlink_click_shows_loader_300ms "/media"
              (mount {| pathname := "/"; search := "" |}) 300 eq_refl)
    as [Haway' _].
  destruct (navlink_click_shows_loader_300ms "/"
              (mount {| pathname := "/"; search := "" |}) 0 eq_refl)
    as [_ Hsame].
  split; [apply Haway; [discriminate | exact Hacc]|].
  split; [apply Haway'; [discriminate | exact Hacc]|].
  apply Hsame. reflexivity.
Defined.

End Sessions.

(** ** Routes the location gives back *)

Section Stability.
Import JS Router Session.

Lemma length_append s1 s2 :
  String.length (s1 +:+ s2) = String.length s1 + String.length s2.
Proof.
  induction s1 as [|c s1 IH]; [reflexivity|].
  rewrite append_cons. cbn [String.length]. now rewrite IH.
Qed.

(** X6: for a target that the browser shows and reports back as it was
    given (path and query of the resulting location, put together, are the
    normalised target), [navigate] is idempotent: a second call with the
    same target changes nothing, whatever the options, so no second history
    entry is pushed. *)
Theorem navigate_twice_is_once (to : option string) (o1 o2 : Options) (w : World) :
  stable w (parsePathFrom to) ->
  exec (navigate to o2) (exec (navigate to o1) w) = exec (navigate to o1) w.
Proof.
  intros (loc & Hres & Hrep).
  destruct (String.eq_dec (parsePathFrom to) (eval locationPath w)) as [Heq|Hne].
  - apply strictNe_false in Heq.
    rewrite (navigate_run to o1), Heq. now rewrite navigate_run, Heq.
  - apply strictNe_true in Hne.
    rewrite (navigate_run to o1), Hne, Hres.
    assert (Hcur : strictNe (parsePathFrom to)
                     (eval locationPath
                        {| location := loc; resolveURL := resolveURL w;
                           pushed := pushed w ++ [parsePathFrom to];
                           popstates := popstates w; uncaught := uncaught w;
                           route := parsePathFrom to;
                           loading := showLoader o1 || loading w;
                           handleRoute := handleRoute w;
                           handleLoading := handleLoading w;
                           now := now w;
                           timers := if showLoader o1
                                     then timers w ++
                                          [{| due := now w + 300; callback := ClearLoading |}]
                                     else timers w |}) = false).
    { apply strictNe_false. now symmetry. }
    now rewrite navigate_run, Hcur.
Qed.

Lemma navigate_twice_is_once_witness :
  let w := mount {| pathname := "/"; search := "" |} in
  let once := exec (navigate (Some "brands?tab=2") defaultOptions) w in
  stable w (parsePathFrom (Some "brands?tab=2")) /\
  pushed once = ["/brands?tab=2"] /\
  exec (navigate (Some "brands?tab=2") {| showLoader := true |}) once = once.
Proof.
  assert (Hst : stable (mount {| pathname := "/"; search := "" |})
                       (parsePathFrom (Some "brands?tab=2"))).
  { exists {| pathname := "/brands"; search := "?tab=2" |}. split; reflexivity. }
  split; [exact Hst|]. split; [reflexivity|].
  exact (navigate_twice_is_once (Some "brands?tab=2") defaultOptions
           {| showLoader := true |} (mount {| pathname := "/"; search := "" |}) Hst).
Defined.

(** X7: for a target that the browser shows but reports back differently
    (it has a fragment, ends in a lone question mark, has a character the
    browser encodes, or a dot segment), [navigate] is never a no-op once the
    location is the one the target denotes: every further call pushes the
    same entry again and sets the loader again. *)
Theorem navigate_unstable_pushes_again
    (to : option string) (options : Options) (w : World) (loc : Location) :
  resolveURL w (parsePathFrom to) = Some loc ->
  pathname loc +:+ search loc <> parsePathFrom to ->
  location w = loc ->
  let w' := exec (navigate to options) w in
  pushed w' = (pushed w ++ [parsePathFrom to])%list /\
  location w' = location w /\
  (showLoader options = true -> loading w' = true /\
     length (timers w') = S (length (timers w))).
Proof.
  intros Hres Hrep Hloc w'.
  assert (Hne : strictNe (parsePathFrom to) (eval locationPath w) = true).
  { apply strictNe_true. intros Heq. apply Hrep. rewrite <- Hloc. now symmetry. }
  subst w'. rewrite navigate_run, Hne, Hres.
  cbn [pushed location loading timers].
  split; [reflexivity|]. split; [now symmetry|].
  intros ->. split; [reflexivity|]. rewrite length_app. cbn. lia.
Qed.

Lemma navigate_unstable_pushes_again_witness :
  let w1 := exec (navigate (Some "/a b/../about#team") defaultOptions)
                 (mount {| pathname := "/"; search := "" |}) in
  let w2 := exec (navigate (Some "/a b/../about#team") defaultOptions) w1 in
  resolveURL w1 (parsePathFrom (Some "/a b/../about#team")) =
    Some {| pathname := "/about"; search := "" |} /\
  location w1 = {| pathname := "/about"; search := "" |} /\
  pushed w2 = ["/a b/../about#team"; "/a b/../about#team"] /\
  location w2 = location w1.
Proof.
  split; [reflexivity|]. split; [reflexivity|].
  destruct (navigate_unstable_pushes_again (Some "/a b/../about#team") defaultOptions
              (exec (navigate (Some "/a b/../about#team") defaultOptions)
                    (mount {| pathname := "/"; search := "" |}))
              {| pathname := "/about"; search := "" |}
              eq_refl) as (Hp & Hl & _).
  - discriminate.
  - reflexivity.
  - split; [exact Hp | exact Hl].
Defined.

End Stability.

(** ** Route and location in step *)

Section InStep.
Import JS Router Session.

Lemma wellFormed_current loc :
  wellFormed loc ->
  parsePathFrom (Some (pathname loc +:+ search loc)) = pathname loc +:+ search loc.
Proof.
  intros [Hs Ht]. apply parsePathFrom_fixed; [exact Ht|].
  destruct (startsWith_slash_inv _ Hs) as [t ->].
  rewrite append_cons. apply startsWith_slash.
Qed.

Lemma handle_in_step ev w :
  tame w ev ->
  route w = eval locationPath w ->
  route (exec (handle ev) w) = eval locationPath (exec (handle ev) w).
Proof.
  intros Hev Hw. destruct ev as [to options|loc|dt]; cbn [handle tame] in *.
  - destruct Hev as (loc & Hres & Hrep). rewrite navigate_run.
    destruct (strictNe (parsePathFrom to) (eval locationPath w)); [|exact Hw].
    rewrite Hres. cbn [route]. now symmetry.
  - rewrite traverse_run. now apply wellFormed_current.
  - rewrite advance_run. exact Hw.
Qed.

Lemma tame_same_browser w w0 ev :
  resolveURL w = resolveURL w0 -> tame w0 ev -> tame w ev.
Proof.
  intros Hres. destruct ev; cbn [tame]; unfold stable; try rewrite Hres; auto.
Qed.

(** X8: from a well-formed start location, through navigations to
    targets the browser reports back as given, traversals to well-formed
    locations and idle time, the route the provider holds is always the path
    and query of the browser location, so a navigation to the route on show
    is a no-op. *)
Theorem route_in_step_with_location (loc : Location) (evs : list Event) :
  wellFormed loc ->
  Forall (tame (mount loc)) evs ->
  let w := exec (handleAll evs) (mount loc) in
  route w = pathname (location w) +:+ search (location w) /\
  (forall options, exec (navigate (Some (route w)) options) w = w).
Proof.
  intros Hloc Hevs w.
  assert (Hstep : route w = eval locationPath w).
  { subst w.
    apply (handleAll_keeps_in (mount loc) (fun w => route w = eval locationPath w) tame).
    - intros ev w0 Hres Hev. apply handle_in_step.
      now apply (tame_same_browser w0 (mount loc)).
    - exact Hevs.
    - now apply wellFormed_current. }
  split; [exact Hstep|].
  intros options.
  assert (Hfix : parsePathFrom (Some (route w)) = route w).
  { destruct (session_route_normalised loc evs) as [Hs Ht]. fold w in Hs, Ht.
    now apply parsePathFrom_fixed. }
  rewrite navigate_run, Hfix.
  assert (Hno : strictNe (route w) (eval locationPath w) = false)
    by now apply strictNe_false.
  now rewrite Hno.
Qed.

Lemma route_in_step_with_location_witness :
  let root := {| pathname := "/"; search := "" |} in
  let evs := [Navigate (Some "about") defaultOptions;
              Traverse {| pathname := "/brands"; search := "?tab=2" |};
              Idle 50;
              Navigate (Some " /media ") {| showLoader := true |}] in
  let w := exec (handleAll evs) (mount root) in
  wellFormed root /\
  Forall (tame (mount root)) evs /\
  route w = pathname (location w) +:+ search (location w) /\
  (forall options, exec (navigate (Some (route w)) options) w = w).
Proof.
  assert (Hroot : wellFormed {| pathname := "/"; search := "" |})
    by (split; reflexivity).
  assert (Hevs : Forall (tame (mount {| pathname := "/"; search := "" |}))
            [Navigate (Some "about") defaultOptions;
             Traverse {| pathname := "/brands"; search := "?tab=2" |};
             Idle 50;
             Navigate (Some " /media ") {| showLoader := true |}]).
  { constructor; [exists {| pathname := "/about"; search := "" |}; split; reflexivity|].
    constructor; [split; reflexivity|].
    constructor; [exact I|].
    constructor; [exists {| pathname := "/media"; search := "" |}; split; reflexivity|].
    constructor. }
  split; [exact Hroot|]. split; [exact Hevs|].
  exact (route_in_step_with_location _ _ Hroot Hevs).
Defined.

End InStep.

(** ** Links and views *)

Section LinksAndViews.
Import JS Router Views.

Lemma startsWith_refl s : startsWith s s = true.
Proof.
  induction s as [|c s IH]; [reflexivity|].
  cbn [startsWith]. now rewrite Ascii.eqb_refl, IH.
Qed.

Lemma startsWith_two a b rest s :
  startsWith s (String a (String b rest)) = true ->
  exists r, s = String a (String b r) /\ startsWith r rest = true.
Proof.
  destruct s as [|c0 [|c1 r]]; cbn [startsWith].
  - discriminate.
  - rewrite andb_false_r. discriminate.
  - intros H. apply andb_true_iff in H as [H0 H].
    apply andb_true_iff in H as [H1 H].
    apply Ascii.eqb_eq in H0, H1. subst. now exists r.
Qed.

Lemma startsWith_unfold2 a b r a' b' rest :
  startsWith (String a (String b r)) (String a' (String b' rest)) =
    Ascii.eqb a' a && (Ascii.eqb b' b && startsWith r rest).
Proof. reflexivity. Qed.

(** Comparisons of two given characters are replaced by their values. *)
Ltac eval_eqb :=
  repeat match goal with
         | |- context [Ascii.eqb ?x ?y] =>
             let v := eval vm_compute in (Ascii.eqb x y) in
             change (Ascii.eqb x y) with v
         end.

(** For a link that does not lead to the root, being active is the prefix
    test alone. *)
Lemma active_prefix route to :
  to <> "/" -> NavLink.active route to = startsWith route to.
Proof.
  intros Hto. unfold NavLink.active.
  assert (Hne : strictNe to "/" = true) by now apply strictNe_true.
  rewrite Hne. cbn [andb].
  destruct (strictEq route to) eqn:He; [|reflexivity].
  apply String.eqb_eq in He. subst. cbn [orb]. symmetry. apply startsWith_refl.
Qed.

(** X9: the link that is highlighted goes with the page that is shown.
    For each of the six prefixes of the switch, the link to it is active
    exactly when the switch shows its view, so no two of these links are
    active together; the link to the root is active on the route ["/"] and
    on no other, although the switch shows Home for every route without a
    known prefix. *)
Theorem active_link_matches_view :
  (forall route pre v,
     In (pre, v) viewTable ->
     (NavLink.active route pre = true <-> resolve route = v)) /\
  (forall route, NavLink.active route "/" = true <-> route = "/") /\
  (forall route,
     resolve route = Home <->
     forall pre v, In (pre, v) viewTable -> NavLink.active route pre = false).
Proof.
  assert (Hsix : forall route pre v, In (pre, v) viewTable ->
                   pre <> "/" /\ (startsWith route pre = true <-> resolve route = v)).
  { intros route pre v Hin. cbn [In viewTable] in Hin.
    repeat (destruct Hin as [[= <- <-]|Hin]); try contradiction;
      (split; [discriminate|]);
      (split;
       [ intros H; apply startsWith_two in H as (r & -> & H);
         unfold resolve; rewrite !startsWith_unfold2; eval_eqb;
         cbn [andb]; now rewrite H
       | unfold resolve;
         repeat (match goal with
                 | |- context [startsWith route ?p] =>
                     destruct (startsWith route p) eqn:?
                 end);
         intros; congruence ]). }
  split; [|split].
  - intros route pre v Hin. destruct (Hsix route pre v Hin) as [Hne Hiff].
    now rewrite active_prefix.
  - intros route. unfold NavLink.active. cbn. rewrite orb_false_r.
    apply String.eqb_eq.
  - intros route. split.
    + intros Hhome pre v Hin. destruct (Hsix route pre v Hin) as [Hne Hiff].
      rewrite active_prefix by exact Hne.
      destruct (startsWith route pre) eqn:Hs; [|reflexivity].
      assert (Hv : resolve route = v) by now apply Hiff.
      cbn [In viewTable] in Hin.
      repeat (destruct Hin as [[= <- <-]|Hin]); try contradiction; congruence.
    + intros Hnone. unfold resolve.
      repeat (match goal with
              | |- context [startsWith route ?p] =>
                  let v := fresh in
                  let H := fresh in
                  destruct (startsWith route p) eqn:H;
                  [ exfalso;
                    assert (Hin : exists v, In (p, v) viewTable)
                      by (cbn; eexists; repeat (try (left; reflexivity); right));
                    destruct Hin as [v Hin];
                    specialize (Hnone p v Hin);
                    rewrite active_prefix in Hnone by discriminate;
                    congruence
                  | ]
              end).
      reflexivity.
Qed.

Lemma active_link_matches_view_witness :
  In ("/brands", Brands) viewTable /\
  (NavLink.active "/brands/anything" "/brands" = true <->
   resolve "/brands/anything" = Brands) /\
  NavLink.active "/brands/anything" "/" = false.
Proof.
  assert (Hin : In ("/brands", Brands) viewTable) by (cbn; tauto).
  split; [exact Hin|]. split; [|reflexivity].
  exact (proj1 active_link_matches_view "/brands/anything" "/brands" Brands Hin).
Defined.

End LinksAndViews.

(** ** Sessions of the theme store *)

Section ThemeSessions.
Import JS Theme ThemeSession.

Lemma toggles_succ n w :
  exec (toggles (S n)) w = exec (toggles n) (exec toggleTheme w).
Proof. cbn [toggles]. now rewrite exec_bind. Qed.

Lemma toggleTheme_theme w : theme (exec toggleTheme w) = flipped (theme w).
Proof. reflexivity. Qed.

Lemma flipped_dark_light t : flipped t = "dark" \/ flipped t = "light".
Proof. unfold flipped. destruct (strictEq t "dark"); auto. Qed.

Lemma flipped_twice t : flipped (flipped t) = t <-> t = "dark" \/ t = "light".
Proof.
  unfold flipped. destruct (strictEq t "dark") eqn:He.
  - apply String.eqb_eq in He. subst. cbn. tauto.
  - apply String.eqb_neq in He. cbn. split.
    + intros <-. now right.
    + intros [->| ->]; [congruence | reflexivity].
Qed.

(** X10: two toggles bring the theme back exactly when it was dark or
    light to begin with (a theme read from storage can be any string, and
    the first toggle takes any other string to dark); from dark or light, an
    even number of toggles gives the theme back and an odd number gives the
    other one. *)
Theorem toggle_twice_restores :
  (forall w,
     theme (exec toggleTheme (exec toggleTheme w)) = theme w <->
     theme w = "dark" \/ theme w = "light") /\
  (forall n w,
     theme w = "dark" \/ theme w = "light" ->
     theme (exec (toggles n) w) =
       if Nat.even n then theme w else flipped (theme w)).
Proof.
  split.
  - intros w. rewrite !toggleTheme_theme. apply flipped_twice.
  - assert (Hpair : forall n w, theme w = "dark" \/ theme w = "light" ->
              theme (exec (toggles n) w) =
                (if Nat.even n then theme w else flipped (theme w)) /\
              theme (exec (toggles (S n)) w) =
                (if Nat.even (S n) then theme w else flipped (theme w))).
    { induction n as [|n IH]; intros w Hw.
      - split; [reflexivity|]. rewrite toggles_succ. reflexivity.
      - destruct (IH w Hw) as [_ H1]. split; [exact H1|].
        rewrite toggles_succ, toggles_succ.
        assert (Hw2 : theme (exec toggleTheme (exec toggleTheme w)) = theme w)
          by (rewrite !toggleTheme_theme; now apply flipped_twice).
        assert (Hw' : theme (exec toggleTheme (exec toggleTheme w)) = "dark" \/
                      theme (exec toggleTheme (exec toggleTheme w)) = "light")
          by now rewrite Hw2.
        destruct (IH _ Hw') as [H0 _]. rewrite H0, Hw2.
        change (Nat.even (S (S n))) with (Nat.even n). reflexivity. }
    intros n w Hw. now destruct (Hpair n w Hw).
Qed.

Lemma toggle_twice_restores_witness :
  let w := startup (<["theme" := "light"]> ∅) in
  (theme w = "dark" \/ theme w = "light") /\
  theme (exec (toggles 3) w) = "dark" /\
  theme (exec (toggles 4) w) = "light".
Proof.
  assert (Hw : theme (startup (<["theme" := "light"]> ∅)) = "dark" \/
               theme (startup (<["theme" := "light"]> ∅)) = "light")
    by (right; reflexivity).
  split; [exact Hw|]. split.
  - exact (proj2 toggle_twice_restores 3 _ Hw).
  - exact (proj2 toggle_twice_restores 4 _ Hw).
Defined.

Lemma startup_inSync storage : themeInSync (startup storage).
Proof.
  split; [reflexivity|]. unfold startup, exec. cbn. apply lookup_insert_eq.
Qed.

Lemma toggleTheme_inSync w : themeInSync (exec toggleTheme w).
Proof.
  rewrite toggleTheme_run. cbv zeta. split; cbn [localStorage documentElement theme].
  - rewrite lookup_insert_eq. now destruct (strictEq (theme w) "dark").
  - apply lookup_insert_eq.
Qed.

Lemma toggles_inSync n : forall w, themeInSync w -> themeInSync (exec (toggles n) w).
Proof.
  induction n as [|n IH]; intros w Hw; [exact Hw|].
  rewrite toggles_succ. apply IH, toggleTheme_inSync.
Qed.

Lemma toggles_other_keys n : forall w k,
  k <> "theme" -> localStorage (exec (toggles n) w) !! k = localStorage w !! k.
Proof.
  induction n as [|n IH]; intros w k Hk; [reflexivity|].
  rewrite toggles_succ, IH by exact Hk.
  rewrite toggleTheme_run. cbv zeta. cbn [localStorage].
  now rewrite lookup_insert_ne.
Qed.

(** X11: after start-up on any storage and any number of toggles, a
    reload (a start-up on the storage as it is then) gives the theme that is
    on show, the attribute [data-theme] carries it, and no key of the storage
    other than [theme] has been touched; start-up alone writes nothing to
    the storage. *)
Theorem theme_survives_reload (storage : gmap string string) (n : nat) :
  let w := exec (toggles n) (startup storage) in
  theme (startup (localStorage w)) = theme w /\
  documentElement w !! "data-theme" = Some (theme w) /\
  (forall k, k <> "theme" -> localStorage w !! k = storage !! k) /\
  localStorage (startup storage) = storage.
Proof.
  intros w.
  destruct (toggles_inSync n _ (startup_inSync storage)) as [Hst Hattr].
  fold w in Hst, Hattr.
  split; [now rewrite startup_theme|]. split; [exact Hattr|].
  split; [|reflexivity].
  intros k Hk. subst w. now rewrite toggles_other_keys.
Qed.

End ThemeSessions.

(** ** More on the contact form *)

Section ContactMore.
Import JS Regex Contact ContactSession.

(** X12: the e-mail check passes exactly the strings that have, somewhere,
    a non-empty run of non-space characters, an at sign, another such run, a
    dot and a third such run; in particular a string that passes has at
    least five characters, and a string without an at sign fails. *)
Theorem email_check_characterised (s : string) :
  (test emailPattern s = true <-> emailShaped s) /\
  (test emailPattern s = true -> 5 <= String.length s) /\
  (Session.contains "@" s = false -> test emailPattern s = false).
Proof.
  assert (Hlen : forall u, nonSpaceRun u -> 1 <= String.length u).
  { intros [|c u] [Hne _]; [congruence | cbn; lia]. }
  assert (Hcontains : forall a b c, Session.contains c (a +:+ String c b) = true).
  { intros a b c. induction a as [|d a IH].
    - change ("" +:+ String c b) with (String c b).
      cbn [Session.contains]. now rewrite Ascii.eqb_refl.
    - rewrite append_cons. cbn [Session.contains]. rewrite IH. apply orb_true_r. }
  split; [apply emailPattern_test|]. split.
  - intros Ht. apply emailPattern_test in Ht
      as (pre & u & v & w & post & -> & Hu & Hv & Hw).
    apply Hlen in Hu, Hv, Hw. rewrite !length_append. cbn [String.length]. lia.
  - intros Hno. destruct (test emailPattern s) eqn:Ht; [|reflexivity].
    apply emailPattern_test in Ht
      as (pre & u & v & w & post & -> & _).
    rewrite <- append_assoc in Hno.
    change ("@" +:+ v +:+ "." +:+ w +:+ post)
      with (String "@" (v +:+ "." +:+ w +:+ post)) in Hno.
    now rewrite Hcontains in Hno.
Qed.

Ltac errorsOf_lookup :=
  unfold errorsOf;
  repeat match goal with
         | |- context [if falsy ?s then _ else _] => destruct (falsy s)
         | |- context [negb (test ?r ?s)] => destruct (test r s); cbn [negb]
         end;
  repeat first [rewrite lookup_insert_eq | rewrite lookup_insert_ne by congruence];
  try rewrite lookup_empty; try reflexivity.

Lemma errorsOf_name f :
  errorsOf f !! "name" =
    if falsy (trim (name f)) then Some "Name is required" else None.
Proof. errorsOf_lookup. Qed.

Lemma errorsOf_message f :
  errorsOf f !! "message" =
    if falsy (trim (message f)) then Some "Message is required" else None.
Proof. errorsOf_lookup. Qed.

Lemma errorsOf_email f :
  errorsOf f !! "email" =
    if falsy (trim (email f)) then Some "Email is required"
    else if negb (test emailPattern (email f)) then Some "Email is invalid"
    else None.
Proof. errorsOf_lookup. Qed.

Lemma errorsOf_other f k :
  k <> "name" -> k <> "email" -> k <> "message" -> errorsOf f !! k = None.
Proof. intros Hn He Hm. errorsOf_lookup. Qed.

Lemma falsy_decide s : falsy s = if decide (s = "") then true else false.
Proof. destruct s; reflexivity. Qed.

(** X13: the errors of a form.  The name and the message get their
    "required" message exactly when they are blank; the e-mail gets "Email
    is required" exactly when it is blank, "Email is invalid" exactly when it
    is not blank and has no e-mail-shaped part, and no error otherwise; no
    other key is ever set. *)
Theorem errorsOf_messages (f : Form) :
  (errorsOf f !! "name" =
     if decide (trim (name f) = "") then Some "Name is required" else None) /\
  (errorsOf f !! "message" =
     if decide (trim (message f) = "") then Some "Message is required" else None) /\
  (errorsOf f !! "email" = Some "Email is required" <-> trim (email f) = "") /\
  (errorsOf f !! "email" = Some "Email is invalid" <->
     trim (email f) <> "" /\ ~ emailShaped (email f)) /\
  (errorsOf f !! "email" = None <->
     trim (email f) <> "" /\ emailShaped (email f)) /\
  (forall k, is_Some (errorsOf f !! k) -> k = "name" \/ k = "email" \/ k = "message").
Proof.
  assert (Hshape : test emailPattern (email f) = true <-> emailShaped (email f))
    by apply emailPattern_test.
  split; [|split; [|split; [|split; [|split]]]].
  - rewrite errorsOf_name, falsy_decide. now destruct (decide (trim (name f) = "")).
  - rewrite errorsOf_message, falsy_decide.
    now destruct (decide (trim (message f) = "")).
  - rewrite errorsOf_email, falsy_decide.
    destruct (decide (trim (email f) = "")) as [Hb|Hb]; [tauto|].
    destruct (test emailPattern (email f)); cbn [negb]; split; congruence.
  - rewrite errorsOf_email, falsy_decide.
    destruct (decide (trim (email f) = "")) as [Hb|Hb].
    + split; [discriminate | tauto].
    + destruct (test emailPattern (email f)); cbn [negb]; split.
      * discriminate.
      * intros [_ Hn]. exfalso. apply Hn. now apply Hshape.
      * intros _. split; [exact Hb|]. intros Hs. apply Hshape in Hs. discriminate.
      * reflexivity.
  - rewrite errorsOf_email, falsy_decide.
    destruct (decide (trim (email f) = "")) as [Hb|Hb].
    + split; [discriminate | tauto].
    + destruct (test emailPattern (email f)); cbn [negb]; split.
      * intros _. split; [exact Hb|]. now apply Hshape.
      * reflexivity.
      * discriminate.
      * intros [_ Hs]. apply Hshape in Hs. discriminate.
  - intros k [x Hx].
    destruct (decide (k = "name")) as [|Hn]; [tauto|].
    destruct (decide (k = "email")) as [|He]; [tauto|].
    destruct (decide (k = "message")) as [|Hm]; [tauto|].
    rewrite errorsOf_other in Hx by assumption. discriminate.
Qed.

End ContactMore.

(** ** Submitting again *)

Section Resubmission.
Import JS Regex Contact ContactSession.

Lemma onSubmit_run_valid API_BASE reply w :
  eval validateForm w = true ->
  exec (onSubmit API_BASE reply) w =
    if succeeds reply then
      {| status := success; error_ := ""; form := emptyForm; formErrors := ∅;
         requests := requests w ++ [contactRequest API_BASE (form w)] |}
    else
      {| status := error; error_ := genericError; form := form w; formErrors := ∅;
         requests := requests w ++ [contactRequest API_BASE (form w)] |}.
Proof.
  intros Hv. unfold exec. rewrite (onSubmit_valid _ _ _ Hv).
  apply validateForm_true_iff in Hv. rewrite Hv.
  destruct reply as [code|]; cbn [succeeds onSubmit_settle]; [|reflexivity].
  destruct (ok code); reflexivity.
Qed.

Lemma onSubmit_run_invalid API_BASE reply w :
  eval validateForm w = false ->
  exec (onSubmit API_BASE reply) w =
    {| status := status w; error_ := error_ w; form := form w;
       formErrors := errorsOf (form w); requests := requests w |}.
Proof. intros Hv. unfold exec. now rewrite (onSubmit_invalid _ _ _ Hv). Qed.

Lemma validateForm_form w w' : form w = form w' -> eval validateForm w = eval validateForm w'.
Proof.
  intros Hf. unfold eval. rewrite !validateForm_run. cbn [fst]. now rewrite Hf.
Qed.

Lemma validateForm_empty w : form w = emptyForm -> eval validateForm w = false.
Proof.
  intros Hf. unfold eval. rewrite validateForm_run, Hf. reflexivity.
Qed.

(** X14: while the request of a valid submission is in flight, the state
    is [submitting] (the Send button is disabled on that state), the message
    of an earlier failure and the earlier field errors are gone, and the
    fields are as the user left them. *)
Theorem request_in_flight (API_BASE : string) (w : World) :
  eval validateForm w = true ->
  let w' := exec (onSubmit_request API_BASE) w in
  eval (onSubmit_request API_BASE) w = true /\
  status w' = submitting /\
  error_ w' = "" /\
  formErrors w' = ∅ /\
  form w' = form w /\
  requests w' = (requests w ++ [contactRequest API_BASE (form w)])%list.
Proof.
  intros Hv w'.
  assert (He : errorsOf (form w) = ∅) by now apply validateForm_true_iff.
  unfold eval in Hv. rewrite validateForm_run in Hv. cbn [fst] in Hv.
  subst w'. unfold eval, exec, onSubmit_request, mbind, state_bind.
  rewrite validateForm_run, Hv. cbn. rewrite He. repeat split; reflexivity.
Qed.

Lemma request_in_flight_witness :
  let stale := {| status := error; error_ := genericError;
                  form := {| name := "Ann"; email := "ann@example.com";
                             message := "Hello" |};
                  formErrors := <["email" := "Email is invalid"]> ∅;
                  requests := [] |} in
  let w' := exec (onSubmit_request "") stale in
  eval validateForm stale = true /\
  status w' = submitting /\ error_ w' = "" /\ formErrors w' = ∅.
Proof.
  split; [vm_compute; reflexivity|].
  destruct (request_in_flight ""
              {| status := error; error_ := genericError;
                 form := {| name := "Ann"; email := "ann@example.com";
                            message := "Hello" |};
                 formErrors := <["email" := "Email is invalid"]> ∅;
                 requests := [] |})
    as (_ & Hs & He & Hf & _).
  - vm_compute. reflexivity.
  - split; [exact Hs|]. split; [exact He | exact Hf].
Defined.

(** X15: after a submission that succeeded, submitting again without
    typing anything sends nothing: the form was cleared, so validation
    raises the three field errors, and the state stays [success]. *)
Theorem resubmit_after_success_sends_nothing
    (API_BASE : string) (reply reply' : FetchResult) (w : World) :
  eval validateForm w = true ->
  succeeds reply = true ->
  let w1 := exec (onSubmit API_BASE reply) w in
  let w2 := exec (onSubmit API_BASE reply') w1 in
  requests w2 = requests w1 /\
  requests w1 = (requests w ++ [contactRequest API_BASE (form w)])%list /\
  status w2 = success /\
  size (formErrors w2) = 3.
Proof.
  intros Hv Hok w1 w2.
  assert (H1 : w1 = {| status := success; error_ := ""; form := emptyForm;
                       formErrors := ∅;
                       requests := requests w ++ [contactRequest API_BASE (form w)] |}).
  { subst w1. now rewrite (onSubmit_run_valid _ _ _ Hv), Hok. }
  assert (Hv1 : eval validateForm w1 = false)
    by (apply validateForm_empty; now rewrite H1).
  subst w2. rewrite (onSubmit_run_invalid _ _ _ Hv1), H1.
  repeat split; reflexivity.
Qed.

Lemma resubmit_after_success_sends_nothing_witness :
  let w := exec (setForm {| name := "Ann"; email := "ann@example.com";
                            message := "Hello" |}) mount in
  let w1 := exec (onSubmit "" (Response 204)) w in
  let w2 := exec (onSubmit "" (Response 204)) w1 in
  eval validateForm w = true /\
  succeeds (Response 204) = true /\
  length (requests w2) = 1 /\
  status w2 = success.
Proof.
  split; [vm_compute; reflexivity|]. split; [reflexivity|].
  destruct (resubmit_after_success_sends_nothing "" (Response 204) (Response 204)
              (exec (setForm {| name := "Ann"; email := "ann@example.com";
                                message := "Hello" |}) mount))
    as (H2 & H1 & Hs & _).
  - vm_compute. reflexivity.
  - reflexivity.
  - split; [|exact Hs]. rewrite H2, H1. reflexivity.
Defined.

(** X16: after a submission that failed, the fields are still there, so
    submitting again passes validation and sends the same request once
    more; its outcome alone decides the state, and a success then clears the
    message of the failure. *)
Theorem retry_after_error_sends_same_request
    (API_BASE : string) (reply reply' : FetchResult) (w : World) :
  eval validateForm w = true ->
  succeeds reply = false ->
  let w1 := exec (onSubmit API_BASE reply) w in
  let w2 := exec (onSubmit API_BASE reply') w1 in
  status w1 = error /\
  eval validateForm w1 = true /\
  requests w2 = (requests w ++ [contactRequest API_BASE (form w);
                                contactRequest API_BASE (form w)])%list /\
  status w2 = (if succeeds reply' then success else error) /\
  error_ w2 = (if succeeds reply' then "" else genericError).
Proof.
  intros Hv Hfail w1 w2.
  assert (H1 : w1 = {| status := error; error_ := genericError; form := form w;
                       formErrors := ∅;
                       requests := requests w ++ [contactRequest API_BASE (form w)] |}).
  { subst w1. now rewrite (onSubmit_run_valid _ _ _ Hv), Hfail. }
  assert (Hv1 : eval validateForm w1 = true).
  { rewrite <- Hv. apply validateForm_form. now rewrite H1. }
  split; [now rewrite H1|]. split; [exact Hv1|].
  subst w2. rewrite (onSubmit_run_valid _ _ _ Hv1), H1. cbn [requests form].
  rewrite <- app_assoc. cbn [app].
  destruct (succeeds reply'); repeat split; reflexivity.
Qed.

Lemma retry_after_error_sends_same_request_witness :
  let w := exec (setForm {| name := "Ann"; email := "ann@example.com";
                            message := "Hello" |}) mount in
  let w1 := exec (onSubmit "" Rejected) w in
  let w2 := exec (onSubmit "" (Response 200)) w1 in
  eval validateForm w = true /\
  succeeds Rejected = false /\
  status w1 = error /\
  length (requests w2) = 2 /\
  status w2 = success /\
  error_ w2 = "".
Proof.
  split; [vm_compute; reflexivity|]. split; [reflexivity|].
  destruct (retry_after_error_sends_same_request "" Rejected (Response 200)
              (exec (setForm {| name := "Ann"; email := "ann@example.com";
                                message := "Hello" |}) mount))
    as (Hs1 & _ & Hr & Hs2 & He2).
  - vm_compute. reflexivity.
  - reflexivity.
  - split; [exact Hs1|]. split; [now rewrite Hr|]. split; [exact Hs2 | exact He2].
Defined.

End Resubmission.

(** ** Sessions of the contact form *)

Section ContactSessions.
Import JS Regex Contact ContactSession.

Lemma mount_settled API_BASE : settled API_BASE mount.
Proof.
  split; [now split|]. split; [discriminate|]. split; [discriminate|constructor].
Qed.

Lemma handle_settled API_BASE ev w :
  settled API_BASE w -> settled API_BASE (exec (handle API_BASE ev) w).
Proof.
  intros (Hidle & Hsub & Herr & Hreq).
  destruct ev as [v|v|v|reply]; cbn [handle];
    try (split; [exact Hidle | split; [exact Hsub | split; [exact Herr | exact Hreq]]]).
  destruct (eval validateForm w) eqn:Hv.
  - rewrite (onSubmit_run_valid _ _ _ Hv).
    assert (Hnew : Forall (fun r => errorsOf (body r) = ∅ /\
                                    url r = API_BASE +:+ "/api/contact" /\
                                    method r = "POST")
                          (requests w ++ [contactRequest API_BASE (form w)])).
    { apply Forall_app. split; [exact Hreq|]. constructor; [|constructor].
      split; [now apply validateForm_true_iff | now split]. }
    destruct (succeeds reply); cbn [status error_ requests].
    + split; [split; [discriminate|]|].
      * intros He. now apply app_eq_nil in He as [_ He].
      * split; [discriminate|]. split; [discriminate | exact Hnew].
    + split; [split; [discriminate|]|].
      * intros He. now apply app_eq_nil in He as [_ He].
      * split; [discriminate|]. split; [reflexivity | exact Hnew].
  - rewrite (onSubmit_run_invalid _ _ _ Hv).
    split; [exact Hidle | split; [exact Hsub | split; [exact Herr | exact Hreq]]].
Qed.

Lemma handleAll_settled API_BASE evs : forall w,
  settled API_BASE w -> settled API_BASE (exec (handleAll API_BASE evs) w).
Proof.
  induction evs as [|ev evs IH]; intros w Hw; [exact Hw|].
  cbn [handleAll]. rewrite exec_bind. now apply IH, handle_settled.
Qed.

Lemma handleAll_requests_bound API_BASE evs : forall w,
  length (requests (exec (handleAll API_BASE evs) w)) <=
    length (requests w) + submissions evs.
Proof.
  induction evs as [|ev evs IH]; intros w; [cbn; lia|].
  cbn [handleAll]. rewrite exec_bind. specialize (IH (exec (handle API_BASE ev) w)).
  destruct ev as [v|v|v|reply]; cbn [handle submissions] in *; try exact IH.
  destruct (eval validateForm w) eqn:Hv.
  - rewrite (onSubmit_run_valid _ _ _ Hv) in IH |- *.
    destruct (succeeds reply); cbn [requests] in IH;
      rewrite length_app in IH; cbn [length] in IH; lia.
  - rewrite (onSubmit_run_invalid _ _ _ Hv) in IH |- *. cbn [requests] in IH. lia.
Qed.

(** X17: through any session of typing and submitting, from the mounted
    form: the state is [idle] exactly as long as no request has gone out, it
    is never [submitting] once a handler has run to its end, the state
    [error] always comes with the generic message, every request sent is a
    POST to the contact endpoint whose body is a form that passes
    validation, and there are no more requests than submissions. *)
Theorem contact_session_invariant (API_BASE : string) (evs : list Event) :
  let w := exec (handleAll API_BASE evs) mount in
  (status w = idle <-> requests w = []) /\
  status w <> submitting /\
  (status w = error -> error_ w = genericError) /\
  Forall (fun r => errorsOf (body r) = ∅ /\
                   url r = API_BASE +:+ "/api/contact" /\ method r = "POST")
         (requests w) /\
  length (requests w) <= submissions evs.
Proof.
  intros w.
  destruct (handleAll_settled API_BASE evs mount (mount_settled API_BASE))
    as (Hidle & Hsub & Herr & Hreq).
  fold w in Hidle, Hsub, Herr, Hreq.
  split; [exact Hidle|]. split; [exact Hsub|]. split; [exact Herr|].
  split; [exact Hreq|].
  exact (handleAll_requests_bound API_BASE evs mount).
Qed.

End ContactSessions.

(** ** The cursor glow *)

Section GlowFacts.
Import CursorGlow.

Variable coord : Type.
Variable minus12 : coord -> coord.

Local Abbreviation World := (CursorGlow.World coord).
Local Abbreviation onMove := (CursorGlow.onMove coord).
Local Abbreviation animationFrame := (CursorGlow.animationFrame coord minus12).
Local Abbreviation handle := (CursorGlow.handle coord minus12).
Local Abbreviation handleAll := (CursorGlow.handleAll coord minus12).

Lemma onMove_run e (w : World) :
  exec (onMove e) w =
    if (raf w =? 0)%Z then
      {| raf := nextHandle w; frames := frames w ++ [(nextHandle w, e)];
         nextHandle := nextHandle w + 1;
         current := current w; transform := transform w |}
    else w.
Proof.
  unfold exec, CursorGlow.onMove, mbind, state_bind, get.
  destruct (raf w =? 0)%Z; reflexivity.
Qed.

Lemma animationFrame_none (w : World) :
  frames w = [] -> exec animationFrame w = w.
Proof.
  intros Hf. unfold exec, CursorGlow.animationFrame. cbn [snd].
  rewrite Hf. destruct w. cbn in *. now subst.
Qed.

Lemma animationFrame_one h e (w : World) :
  frames w = [(h, e)] ->
  exec animationFrame w =
    {| raf := 0; frames := []; nextHandle := nextHandle w; current := current w;
       transform := if current w
                    then Some (translate3d (minus12 (clientX e)) (minus12 (clientY e)))
                    else transform w |}.
Proof.
  intros Hf. unfold exec, CursorGlow.animationFrame. cbn [snd].
  rewrite Hf. cbn [foldl snd].
  unfold exec, frameCallback, mbind, state_bind, get. cbn.
  destruct (current w); reflexivity.
Qed.

Lemma mount_throttled : throttled (mount : World).
Proof. split; [reflexivity|]. now left. Qed.

Lemma handle_throttled ev (w : World) :
  throttled w -> throttled (exec (handle ev) w).
Proof.
  intros [Hpos Hw]. destruct ev as [e|]; cbn [CursorGlow.handle].
  - rewrite onMove_run. destruct Hw as [[Hr Hf]|(e0 & Hr & Hf)].
    + rewrite Hr. cbn [Z.eqb]. split; cbn [nextHandle raf frames]; [lia|].
      right. exists e. rewrite Hf. split; [lia | reflexivity].
    + apply Z.eqb_neq in Hr as Hr'. rewrite Hr'. split; [exact Hpos|].
      right. now exists e0.
  - destruct Hw as [[Hr Hf]|(e0 & Hr & Hf)].
    + rewrite (animationFrame_none _ Hf). split; [exact Hpos | now left].
    + rewrite (animationFrame_one _ _ _ Hf). split; [exact Hpos | now left].
Qed.

Lemma handleAll_throttled evs : forall w : World,
  throttled w -> throttled (exec (handleAll evs) w).
Proof.
  induction evs as [|ev evs IH]; intros w Hw; [exact Hw|].
  cbn [CursorGlow.handleAll]. rewrite exec_bind. now apply IH, handle_throttled.
Qed.

Lemma moves_ignored (es : list (MouseEvent coord)) : forall w : World,
  raf w <> 0%Z -> exec (handleAll (map Move es)) w = w.
Proof.
  induction es as [|e es IH]; intros w Hr; [reflexivity|].
  cbn [map CursorGlow.handleAll CursorGlow.handle]. rewrite exec_bind.
  rewrite onMove_run. apply Z.eqb_neq in Hr as Hr'. rewrite Hr'.
  now apply IH.
Qed.

Lemma handleAll_app evs1 evs2 (w : World) :
  exec (handleAll (evs1 ++ evs2)) w = exec (handleAll evs2) (exec (handleAll evs1) w).
Proof.
  revert w. induction evs1 as [|ev evs1 IH]; intros w; [reflexivity|].
  cbn [app CursorGlow.handleAll]. now rewrite !exec_bind, IH.
Qed.

(** X18: through any sequence of mouse moves and animation frames, at
    most one frame callback is requested at a time, and [raf] is 0 exactly
    when none is: the listener never piles up requests. *)
Theorem glow_requests_one_frame (evs : list (CursorGlow.Event coord)) :
  let w := exec (handleAll evs) mount in
  length (frames w) <= 1 /\
  (raf w = 0%Z <-> frames w = []) /\
  (forall h e, In (h, e) (frames w) -> h = raf w).
Proof.
  intros w.
  destruct (handleAll_throttled evs _ mount_throttled) as [_ Hw]. fold w in Hw.
  destruct Hw as [[Hr Hf]|(e0 & Hr & Hf)]; rewrite Hf.
  - split; [cbn; lia|]. split; [now split|]. intros h e [].
  - split; [cbn; lia|]. split.
    + split; [contradiction | discriminate].
    + intros h e [[= -> _]|[]]. reflexivity.
Qed.

(** X19: within one frame the first move wins.  From a state with no
    frame requested and the element in place, a move followed by any number
    of further moves and then a frame leaves the glow at the position of the
    first move, offset by 12, with no request left; the later moves are
    dropped. *)
Theorem glow_follows_first_move
    (e : MouseEvent coord) (es : list (MouseEvent coord)) (w : World) :
  throttled w ->
  raf w = 0%Z ->
  current w = true ->
  let w' := exec (handleAll (Move e :: map Move es ++ [Frame])) w in
  transform w' = Some (translate3d (minus12 (clientX e)) (minus12 (clientY e))) /\
  raf w' = 0%Z /\
  frames w' = [] /\
  exec (handleAll (Move e :: map Move es)) w = exec (handleAll [Move e]) w.
Proof.
  intros [Hpos Hw] Hr Hcur w'.
  assert (Hf : frames w = []).
  { destruct Hw as [[_ Hf]|(e0 & Hr0 & _)]; [exact Hf | contradiction]. }
  set (w1 := exec (onMove e) w).
  assert (H1 : w1 = {| raf := nextHandle w; frames := [(nextHandle w, e)];
                       nextHandle := nextHandle w + 1;
                       current := current w; transform := transform w |}).
  { subst w1. rewrite onMove_run, Hr, Hf. reflexivity. }
  assert (Hr1 : raf w1 <> 0%Z) by (rewrite H1; cbn [raf]; lia).
  assert (Hmoves : exec (handleAll (Move e :: map Move es)) w = w1).
  { cbn [CursorGlow.handleAll CursorGlow.handle]. rewrite exec_bind.
    fold w1. now apply moves_ignored. }
  assert (Hw' : w' = exec animationFrame w1).
  { subst w'. change (Move e :: map Move es ++ [Frame])%list
      with ((Move e :: map Move es) ++ [Frame])%list.
    rewrite handleAll_app, Hmoves.
    cbn [CursorGlow.handleAll CursorGlow.handle]. now rewrite exec_bind. }
  rewrite Hw', (animationFrame_one (nextHandle w) e w1) by now rewrite H1.
  rewrite H1. cbn [transform raf frames current]. rewrite Hcur.
  split; [reflexivity|]. split; [reflexivity|]. split; [reflexivity|].
  rewrite Hmoves. cbn [CursorGlow.handleAll CursorGlow.handle].
  now rewrite exec_bind.
Qed.

End GlowFacts.

Lemma glow_follows_first_move_witness :
  let sub12 := fun n : Z => (n - 12)%Z in
  let at_ := fun x y : Z => {| CursorGlow.clientX := x; CursorGlow.clientY := y |} in
  let w' := exec (CursorGlow.handleAll Z sub12
                    [CursorGlow.Move (at_ 100 40)%Z; CursorGlow.Move (at_ 101 41)%Z;
                     CursorGlow.Move (at_ 150 90)%Z; CursorGlow.Frame])
                 CursorGlow.mount in
  CursorGlow.throttled (CursorGlow.mount : CursorGlow.World Z) /\
  CursorGlow.transform w' = Some (CursorGlow.translate3d 88 28)%Z /\
  CursorGlow.raf w' = 0%Z.
Proof.
  split; [apply mount_throttled|].
  destruct (glow_follows_first_move Z (fun n : Z => (n - 12)%Z)
              {| CursorGlow.clientX := 100%Z; CursorGlow.clientY := 40%Z |}
              [{| CursorGlow.clientX := 101%Z; CursorGlow.clientY := 41%Z |};
               {| CursorGlow.clientX := 150%Z; CursorGlow.clientY := 90%Z |}]
              CursorGlow.mount (mount_throttled Z) eq_refl eq_refl)
    as (Ht & Hr & _).
  split; [exact Ht | exact Hr].
Defined.

(** ** What reaches the session history *)

Section HistoryLog.
Import JS Router Session.

Lemma handle_pushed_normalised ev w :
  Forall normalised (pushed w) -> Forall normalised (pushed (exec (handle ev) w)).
Proof.
  intros Hw. destruct ev as [to options|loc|dt]; cbn [handle].
  - rewrite navigate_run.
    destruct (strictNe (parsePathFrom to) (eval locationPath w)); [|exact Hw].
    destruct (resolveURL w (parsePathFrom to)); [|exact Hw].
    cbn [pushed]. apply Forall_app. split; [exact Hw|].
    constructor; [apply parsePathFrom_normalised | constructor].
  - rewrite traverse_run. exact Hw.
  - rewrite advance_run. exact Hw.
Qed.

Lemma handleAll_counts evs : forall w,
  length (pushed (exec (handleAll evs) w)) <= length (pushed w) + navigations evs /\
  popstates (exec (handleAll evs) w) = popstates w + traversals evs.
Proof.
  induction evs as [|ev evs IH]; intros w; [cbn; lia|].
  cbn [handleAll]. rewrite exec_bind.
  destruct (IH (exec (handle ev) w)) as [Hp Ht].
  destruct ev as [to options|loc|dt]; cbn [handle navigations traversals] in *.
  - rewrite navigate_run in Hp, Ht |- *.
    destruct (strictNe (parsePathFrom to) (eval locationPath w));
      [destruct (resolveURL w (parsePathFrom to))|];
      cbn [pushed popstates] in Hp, Ht; try rewrite length_app in Hp;
      cbn [length] in Hp; split; lia.
  - rewrite traverse_run in Hp, Ht |- *. cbn [pushed popstates] in Hp, Ht. split; lia.
  - rewrite advance_run in Hp, Ht |- *. cbn [pushed popstates] in Hp, Ht. split; lia.
Qed.

(** X20: whatever happens to the provider, every URL it has handed to
    [pushState] is a normalised path (it starts with a slash and has no
    white space at the ends); only navigations push, at most one entry each,
    and each traversal is answered by exactly one run of the [popstate]
    listener. *)
Theorem pushed_entries_normalised (loc : Location) (evs : list Event) :
  let w := exec (handleAll evs) (mount loc) in
  Forall (fun url => startsWith url "/" = true /\ trimmed url) (pushed w) /\
  length (pushed w) <= navigations evs /\
  popstates w = traversals evs.
Proof.
  intros w. split.
  - subst w.
    apply (handleAll_keeps (fun w => Forall normalised (pushed w)) (fun _ => True)).
    + intros ev w0 _. apply handle_pushed_normalised.
    + clear. induction evs; constructor; auto.
    + constructor.
  - exact (handleAll_counts evs (mount loc)).
Qed.

End HistoryLog.

(** ** A URL the browser refuses, and what a render brings *)

Section Refusals.
Import JS Router Session.

(** X21: when the browser refuses the URL of a navigation that asked for
    the loader ([pushState] throws), nothing is pushed, the route and the
    location stay, the exception leaves [navigate] uncaught, and the loading
    flag, put up before the call of [pushState], has no timer to take it
    down: with nothing else pending it stays up however long the event loop
    idles. *)
Theorem loader_stuck_after_refused_navigation
    (to : option string) (w : World) (dt : Z) :
  parsePathFrom to <> eval locationPath w ->
  resolveURL w (parsePathFrom to) = None ->
  timers w = [] ->
  let w' := exec (advance dt) (exec (navigate to {| showLoader := true |}) w) in
  loading w' = true /\
  timers w' = [] /\
  pushed w' = pushed w /\
  route w' = route w /\
  location w' = location w /\
  uncaught w' = (uncaught w ++ [SecurityError])%list.
Proof.
  intros Hne Hres Hquiet w'. subst w'.
  apply strictNe_true in Hne.
  rewrite advance_run, navigate_run, Hne, Hres.
  cbn [showLoader orb loading timers pushed route location uncaught now].
  rewrite Hquiet. repeat split; reflexivity.
Qed.

Lemma loader_stuck_after_refused_navigation_witness :
  let w := mount {| pathname := "/"; search := "" |} in
  let w' := exec (advance 60000)
                 (exec (navigate (Some "//evil.com") {| showLoader := true |}) w) in
  parsePathFrom (Some "//evil.com") <> eval locationPath w /\
  resolveURL w (parsePathFrom (Some "//evil.com")) = None /\
  timers w = [] /\
  loading w' = true /\
  timers w' = [] /\
  pushed w' = [] /\
  route w' = "/" /\
  uncaught w' = [SecurityError].
Proof.
  split; [discriminate|]. split; [reflexivity|]. split; [reflexivity|].
  destruct (loader_stuck_after_refused_navigation (Some "//evil.com")
              (mount {| pathname := "/"; search := "" |}) 60000)
    as (Hl & Ht & Hp & Hr & _ & Hu); [discriminate | reflexivity | reflexivity |].
  split; [exact Hl|]. split; [exact Ht|]. split; [exact Hp|].
  split; [exact Hr | exact Hu].
Defined.

(** X22: [window.__router] lags one render behind.  A call of [navigate]
    leaves what its [route] getter and its [loading] field give as they
    were, whatever the call did to the state; the render that follows brings
    them in line with the state.  So right after [navigate('/__test__')] on
    the root page the location already ends in [/__test__] while
    [window.__router.route] is still ["/"], as in the development tests of
    the source. *)
Theorem router_handle_lags_a_render :
  (forall to options w,
     let w' := exec (navigate to options) w in
     handleRoute w' = handleRoute w /\
     handleLoading w' = handleLoading w /\
     handleRoute (exec render w') = route w' /\
     handleLoading (exec render w') = loading w') /\
  (let w' := exec (navigate (Some "/__test__") defaultOptions)
                  (mount {| pathname := "/"; search := "" |}) in
   endsWith (pathname (location w')) "/__test__" = true /\
   route w' = "/__test__" /\
   handleRoute w' = "/" /\
   handleRoute (exec render w') = "/__test__").
Proof.
  split.
  - intros to options w w'. subst w'. rewrite navigate_run.
    destruct (strictNe (parsePathFrom to) (eval locationPath w));
      [destruct (resolveURL w (parsePathFrom to))|]; repeat split; reflexivity.
  - vm_compute. repeat split; reflexivity.
Qed.

End Refusals.

(** ** Plain URLs *)

Section PlainURLs.
Import JS Router Session Regex.

(** What the parser does with the characters of a plain URL. *)
Lemma segmentChar_facts c :
  URL.segmentChar c = true ->
  URL.isSlash c = false /\ Ascii.eqb c "?" = false /\ Ascii.eqb c "#" = false /\
  Ascii.eqb c "/" = false /\
  URL.pathSet c = false /\ Ascii.eqb c "." = false /\ Ascii.eqb c "%" = false /\
  URL.isC0ControlOrSpace c = false /\ URL.isTabOrNewline c = false /\
  isWhiteSpace c = false.
Proof.
  destruct c as [[] [] [] [] [] [] [] []]; vm_compute; intros H;
    first [discriminate H | repeat split; reflexivity].
Qed.

Lemma queryChar_facts c :
  URL.queryChar c = true ->
  Ascii.eqb c "#" = false /\ URL.specialQuerySet c = false /\
  URL.isC0ControlOrSpace c = false /\ URL.isTabOrNewline c = false /\
  isWhiteSpace c = false.
Proof.
  destruct c as [[] [] [] [] [] [] [] []]; vm_compute; intros H;
    first [discriminate H | repeat split; reflexivity].
Qed.

Lemma kept_facts c :
  URL.kept c = true ->
  URL.isC0ControlOrSpace c = false /\ URL.isTabOrNewline c = false /\
  isWhiteSpace c = false.
Proof.
  unfold URL.kept. intros H.
  apply andb_true_iff in H as [H H3]. apply andb_true_iff in H as [H1 H2].
  now rewrite negb_true_iff in H1, H2, H3.
Qed.

Lemma plainQuery_kept s : URL.plainQuery s = true -> allIn URL.kept s = true.
Proof.
  induction s as [|c s IH]; [reflexivity|].
  cbn [URL.plainQuery allIn]. intros H. apply andb_true_iff in H as [Hc Hs].
  destruct (queryChar_facts c Hc) as (_ & _ & H1 & H2 & H3).
  unfold URL.kept at 1. now rewrite H1, H2, H3, IH.
Qed.

Lemma plainPath_kept s : URL.plainPath s = true -> allIn URL.kept s = true.
Proof.
  induction s as [|c s IH]; [reflexivity|].
  cbn [URL.plainPath allIn].
  destruct (Ascii.eqb c "/") eqn:Hslash.
  - apply Ascii.eqb_eq in Hslash. subst c. intros H. now rewrite IH.
  - destruct (Ascii.eqb c "?") eqn:Hq.
    + apply Ascii.eqb_eq in Hq. subst c. intros H.
      destruct s as [|d s]; [discriminate|].
      now rewrite (plainQuery_kept _ H).
    + intros H. apply andb_true_iff in H as [Hc Hs].
      destruct (segmentChar_facts c Hc) as (_ & _ & _ & _ & _ & _ & _ & H1 & H2 & H3).
      unfold URL.kept at 1. now rewrite H1, H2, H3, IH.
Qed.

Lemma dropEnd_kept s : allIn URL.kept s = true -> URL.dropEnd URL.isC0ControlOrSpace s = s.
Proof.
  induction s as [|c s IH]; [reflexivity|].
  cbn [allIn URL.dropEnd]. intros H. apply andb_true_iff in H as [Hc Hs].
  rewrite (IH Hs). destruct (kept_facts c Hc) as (H1 & _).
  destruct s; [now rewrite H1 | reflexivity].
Qed.

Lemma remove_kept s : allIn URL.kept s = true -> URL.remove URL.isTabOrNewline s = s.
Proof.
  induction s as [|c s IH]; [reflexivity|].
  cbn [allIn URL.remove]. intros H. apply andb_true_iff in H as [Hc Hs].
  destruct (kept_facts c Hc) as (_ & H2 & _). now rewrite H2, (IH Hs).
Qed.

Lemma trimEnd_kept s : allIn URL.kept s = true -> trimEnd s = s.
Proof.
  induction s as [|c s IH]; [reflexivity|].
  cbn [allIn trimEnd]. intros H. apply andb_true_iff in H as [Hc Hs].
  rewrite (IH Hs). destruct (kept_facts c Hc) as (_ & _ & H3).
  destruct s; [now rewrite H3 | reflexivity].
Qed.

Lemma queryState_plain s : URL.plainQuery s = true -> URL.queryState s = s.
Proof.
  induction s as [|c s IH]; [reflexivity|].
  cbn [URL.plainQuery URL.queryState]. intros H.
  apply andb_true_iff in H as [Hc Hs].
  destruct (queryChar_facts c Hc) as (H1 & H2 & _).
  rewrite H1. unfold URL.utf8PercentEncode. rewrite H2, (IH Hs). reflexivity.
Qed.

Lemma serializePath_snoc path segment :
  URL.serializePath (path ++ [segment]) =
    URL.serializePath path +:+ String "/" segment.
Proof.
  induction path as [|x path IH].
  - cbn [app URL.serializePath]. now rewrite append_nil_r.
  - cbn [app URL.serializePath]. now rewrite IH, append_assoc.
Qed.

Lemma endSegment_plain buffer path final :
  allIn URL.segmentChar buffer = true ->
  URL.endSegment buffer path final = (path ++ [buffer])%list.
Proof.
  intros Hb. unfold URL.endSegment, URL.isDoubleDot, URL.isSingleDot.
  destruct buffer as [|c b]; [reflexivity|].
  cbn [allIn] in Hb. apply andb_true_iff in Hb as [Hc _].
  destruct (segmentChar_facts c Hc) as (_ & _ & _ & _ & _ & Hdot & Hpct & _).
  cbn [existsb String.eqb]. now rewrite Hdot, Hpct.
Qed.

(** The path state gives back a plain rest of a URL as it is. *)
Lemma pathState_plain s : forall buffer path,
  URL.plainPath s = true ->
  allIn URL.segmentChar buffer = true ->
  URL.serializePath (URL.pathState s buffer path).1 +:+
    URL.searchOf (URL.pathState s buffer path).2 =
  URL.serializePath path +:+ String "/" (buffer +:+ s).
Proof.
  induction s as [|c s IH]; intros buffer path Hs Hb.
  - cbn [URL.pathState fst snd URL.searchOf].
    rewrite (endSegment_plain _ _ _ Hb), serializePath_snoc.
    now rewrite !append_nil_r.
  - cbn [URL.plainPath] in Hs. cbn [URL.pathState].
    destruct (Ascii.eqb c "/") eqn:Hslash.
    + apply Ascii.eqb_eq in Hslash. subst c.
      change (URL.isSlash "/") with true. cbn iota.
      rewrite (endSegment_plain _ _ _ Hb).
      rewrite (IH "" _ Hs eq_refl), serializePath_snoc.
      change ("" +:+ s) with s.
      rewrite append_assoc. f_equal.
    + destruct (Ascii.eqb c "?") eqn:Hq.
      * apply Ascii.eqb_eq in Hq. subst c.
        change (URL.isSlash "?") with false. cbn iota.
        cbn [fst snd].
        destruct s as [|d s]; [discriminate|].
        rewrite (queryState_plain _ Hs), (endSegment_plain _ _ _ Hb).
        rewrite serializePath_snoc. cbn [URL.searchOf].
        rewrite append_assoc. f_equal.
      * apply andb_true_iff in Hs as [Hc Hs].
        destruct (segmentChar_facts c Hc) as (H1 & _ & H3 & _ & H5 & _).
        rewrite H1, H3. unfold URL.utf8PercentEncode. rewrite H5.
        rewrite (IH _ path Hs).
        -- now rewrite append_assoc.
        -- rewrite allIn_append, Hb. cbn [allIn]. now rewrite Hc.
Qed.

(** A plain URL is read by the parser as it stands. *)
Lemma plain_parse url :
  URL.plain url = true ->
  exists p q, URL.parse url = Some (p, q) /\ p +:+ q = url.
Proof.
  destruct url as [|first rest]; [discriminate|].
  cbn [URL.plain]. intros H.
  apply andb_true_iff in H as [H Hpath]. apply andb_true_iff in H as [Hfirst Hsecond].
  apply Ascii.eqb_eq in Hfirst. subst first.
  assert (Hkept : allIn URL.kept (String "/" rest) = true).
  { cbn [allIn]. now rewrite (plainPath_kept _ Hpath). }
  unfold URL.parse.
  change (URL.dropStart URL.isC0ControlOrSpace (String "/" rest))
    with (String "/" rest).
  rewrite (dropEnd_kept _ Hkept), (remove_kept _ Hkept).
  change (negb (Ascii.eqb "/" "/")) with false. cbn iota.
  assert (Hauth : match rest with
                  | String second _ => URL.isSlash second
                  | EmptyString => false
                  end = false).
  { destruct rest as [|second r]; [reflexivity|].
    apply negb_true_iff in Hsecond. cbn [URL.plainPath] in Hpath.
    rewrite Hsecond in Hpath.
    destruct (Ascii.eqb second "?") eqn:Hq.
    - apply Ascii.eqb_eq in Hq. now subst.
    - apply andb_true_iff in Hpath as [Hc _].
      now destruct (segmentChar_facts second Hc) as (H1 & _). }
  rewrite Hauth.
  pose proof (pathState_plain rest "" [] Hpath eq_refl) as Hround.
  destruct (URL.pathState rest "" []) as [path query]. cbn [fst snd] in Hround.
  exists (URL.serializePath path), (URL.searchOf query).
  split; [reflexivity|]. exact Hround.
Qed.

(** X23: the URL parser gives a plain URL back as it stands (a plain URL
    is one slash, not followed by another, segments of letters, digits,
    [-], [_] and [~] between slashes and, if any, a query of those
    characters and [& + . / =] that is not empty): path and query of the
    location it denotes, put together, are the URL.  [parsePathFrom] leaves
    a plain URL alone as well, so on any page a plain target is stable and a
    repeated [navigate] to it pushes one entry only.  All link targets of
    the site are plain. *)
Theorem plain_urls_are_stable (url : string) :
  URL.plain url = true ->
  (exists loc, locationOf url = Some loc /\ pathname loc +:+ search loc = url) /\
  parsePathFrom (Some url) = url /\
  (forall loc, stable (mount loc) (parsePathFrom (Some url))) /\
  (forall loc o1 o2,
     pushed (exec (navigate (Some url) o2)
               (exec (navigate (Some url) o1) (mount loc))) =
     pushed (exec (navigate (Some url) o1) (mount loc))) /\
  forallb URL.plain NavLink.targets = true.
Proof.
  intros Hplain.
  assert (Hloc : exists loc, locationOf url = Some loc /\
                             pathname loc +:+ search loc = url).
  { destruct (plain_parse url Hplain) as (p & q & Hp & Hpq).
    exists {| pathname := p; search := q |}. unfold locationOf. now rewrite Hp. }
  assert (Hfix : parsePathFrom (Some url) = url).
  { destruct url as [|first rest]; [discriminate|].
    pose proof Hplain as H. cbn [URL.plain] in H.
    apply andb_true_iff in H as [H Hpath]. apply andb_true_iff in H as [Hfirst _].
    apply Ascii.eqb_eq in Hfirst. subst first.
    apply parsePathFrom_fixed; [|reflexivity].
    unfold trimmed, trim. rewrite trimStart_nonspace by reflexivity.
    apply trimEnd_kept. cbn [allIn]. now rewrite (plainPath_kept _ Hpath). }
  assert (Hstable : forall loc, stable (mount loc) (parsePathFrom (Some url))).
  { intros loc. rewrite Hfix. exact Hloc. }
  split; [exact Hloc|]. split; [exact Hfix|]. split; [exact Hstable|].
  split; [|reflexivity].
  intros loc o1 o2. destruct (Hstable loc) as (l & Hres & Hrep).
  destruct (String.eq_dec (parsePathFrom (Some url)) (eval locationPath (mount loc)))
    as [Heq|Hne].
  - apply strictNe_false in Heq.
    rewrite (navigate_run (Some url) o1), Heq. now rewrite navigate_run, Heq.
  - apply strictNe_true in Hne.
    rewrite (navigate_run (Some url) o1), Hne, Hres.
    rewrite navigate_run.
    assert (Hcur : forall w' : World,
              location w' = l ->
              strictNe (parsePathFrom (Some url)) (eval locationPath w') = false).
    { intros w' Hl. apply strictNe_false. unfold eval, locationPath, mbind, state_bind,
        get, mret, state_ret. cbn [fst]. rewrite Hl. now symmetry. }
    now rewrite Hcur by reflexivity.
Qed.

Lemma plain_urls_are_stable_witness :
  URL.plain "/brands/new-in_2024?tab=2&sort=a.b" = true /\
  locationOf "/brands/new-in_2024?tab=2&sort=a.b" =
    Some {| pathname := "/brands/new-in_2024"; search := "?tab=2&sort=a.b" |} /\
  parsePathFrom (Some "/brands/new-in_2024?tab=2&sort=a.b") =
    "/brands/new-in_2024?tab=2&sort=a.b".
Proof.
  split; [reflexivity|]. split; [reflexivity|].
  exact (proj1 (proj2 (plain_urls_are_stable "/brands/new-in_2024?tab=2&sort=a.b"
                         eq_refl))).
Defined.

End PlainURLs.
